(** * plugin-alias: the [--alias] flag of the bundler CLI

    A shallow embedding of the flag handling of [PluginLoader.js]
    ([addFlags]: the [default] resolver and the [verify] callback, and
    [getInputPlugin]) and of the older [init.js] hook that carries an
    earlier copy of the same two callbacks.

    Conventions of the embedding.
    - A JavaScript string is a sequence of UTF-16 code units; the model
      holds the code units below 256 in [ascii], so the line terminators
      U+2028 and U+2029 cannot occur and LF and CR are the only ones.
    - A value is data as the command line and [JSON.parse] give it:
      [undefined], [null], Booleans, integral Numbers below 10^21 in
      magnitude, strings, Arrays and plain objects; there are no
      functions and no symbols.  A JavaScript object is a finite map
      from property names to values ([gmap string value]); an Array is a
      list.  The order of the properties of an object, which a map does
      not record, is a parameter ([key_order]) of [JSON.stringify].
    - A function that mutates its argument and may throw returns the
      final object together with its completion.
    - What is outside the repository is a parameter: [JSON.parse], the
      aliasing transform [@rollup/plugin-alias], which may throw, and
      the answers of the plugin manager and of the eventbus.
    - [verify] is embedded three times: as a function on the arrays of
      strings the flag is declared to hold ([PluginLoader.forEach]), as
      a function on arrays of values of any type
      ([PluginLoader.Values.forEach], which [PluginLoader.verify] runs)
      and over a store of objects ([Store.verify]), where the RegExp
      object and the Arrays of a call are objects with a state.  The
      lemmas [Values_forEach_strings], [verify_strings] and
      [Store_verify] relate the three. *)

From stdpp Require Import gmap strings list fin_maps pretty.
From Stdlib Require Import Ascii ZArith Lia.

Set Warnings "-register-all".
Open Scope string_scope.
Open Scope list_scope.

(** ** Characters and strings *)

Definition LF : ascii := "010"%char.
Definition CR : ascii := "013"%char.
Definition DQUOTE : ascii := "034"%char.
Definition BACKSLASH : ascii := "092"%char.
Definition EQUALS : ascii := "="%char.

(** The string of one code unit. *)
Definition str1 (c : ascii) : string := String c "".

(** ** The fragment of RegExp the pattern [/(.+)=(.+)/] is written in

    Pattern characters, [.], the greedy quantifier [+] over a
    one-character atom, capture groups and concatenation. *)
Module RegExp.

Inductive atom : Type :=
  | PatternChar (c : ascii)   (* matches exactly [c] *)
  | Dot.                      (* matches any code unit but a line terminator *)

Inductive regex : Type :=
  | Atom (a : atom)
  | Plus (a : atom)           (* [a+], greedy *)
  | Group (r : regex)         (* [( r )], capturing *)
  | Seq (r1 r2 : regex).

Definition is_line_terminator (c : ascii) : bool :=
  Ascii.eqb c LF || Ascii.eqb c CR.

Definition atom_matches (a : atom) (c : ascii) : bool :=
  match a with
  | PatternChar c' => Ascii.eqb c c'
  | Dot => negb (is_line_terminator c)
  end.

(** One way of matching a pattern at the start of the input: the text
    consumed, the captures of the groups in the order of their opening
    parentheses, and the input that is left. *)
Record alt : Type := Alt {
  matched : string;
  captures : list string;
  rest : string
}.

(** The alternatives of a backtracking matcher, in the order in which
    it tries them.  A greedy [a+] first tries to take one more
    character and only then to stop where it is. *)
Fixpoint plus_alts (a : atom) (s : string) : list alt :=
  match s with
  | EmptyString => []
  | String c t =>
      if atom_matches a c then
        map (fun x => Alt (String c (matched x)) [] (rest x)) (plus_alts a t)
        ++ [Alt (str1 c) [] t]
      else []
  end.

Fixpoint alts (r : regex) (s : string) : list alt :=
  match r with
  | Atom a =>
      match s with
      | String c t => if atom_matches a c then [Alt (str1 c) [] t] else []
      | EmptyString => []
      end
  | Plus a => plus_alts a s
  | Group r' =>
      map (fun x => Alt (matched x) (matched x :: captures x) (rest x)) (alts r' s)
  | Seq r1 r2 =>
      flat_map (fun x =>
        map (fun y => Alt (matched x +:+ matched y)
                          (captures x ++ captures y) (rest y))
            (alts r2 (rest x)))
        (alts r1 s)
  end.

(** [RegExp.prototype.exec] for a pattern without the [g] and [y]
    flags: the search starts at index 0 whatever [lastIndex] holds, and
    [lastIndex] is not written; the match is tried at each index from
    the left, the end of the input included.  The result is the array
    [[whole, capture 1, ...]], or [None] for [null]. *)
Fixpoint exec (r : regex) (s : string) : option (list string) :=
  match alts r s with
  | x :: _ => Some (matched x :: captures x)
  | [] =>
      match s with
      | EmptyString => None
      | String _ t => exec r t
      end
  end.

End RegExp.

Import RegExp.

(** [const regex = /(.+)=(.+)/;] *)
Definition regex : RegExp.regex :=
  Seq (Group (Plus Dot)) (Seq (Atom (PatternChar EQUALS)) (Group (Plus Dot))).

(** ** JSON.stringify on an Array of strings

    [JSON.stringify(a)] without indentation: the elements quoted
    (QuoteJSONString) and separated by commas, between brackets. *)
Module JSON.

Definition hex_digit (n : N) : ascii :=
  match n with
  | 0 => "0" | 1 => "1" | 2 => "2" | 3 => "3" | 4 => "4" | 5 => "5"
  | 6 => "6" | 7 => "7" | 8 => "8" | 9 => "9" | 10 => "a" | 11 => "b"
  | 12 => "c" | 13 => "d" | 14 => "e" | _ => "f"
  end%N%char.

(** The escape of one code unit: the two-character escapes, [\u00XX]
    (lower-case digits) for the other control characters, and the code
    unit itself otherwise. *)
Definition quote_code_unit (c : ascii) : string :=
  let n := N_of_ascii c in
  if (n =? 8)%N then String BACKSLASH "b"
  else if (n =? 9)%N then String BACKSLASH "t"
  else if (n =? 10)%N then String BACKSLASH "n"
  else if (n =? 12)%N then String BACKSLASH "f"
  else if (n =? 13)%N then String BACKSLASH "r"
  else if (n =? 34)%N then String BACKSLASH (str1 DQUOTE)
  else if (n =? 92)%N then String BACKSLASH (str1 BACKSLASH)
  else if (n <? 32)%N then
    String BACKSLASH "u00" +:+ str1 (hex_digit (n / 16)) +:+ str1 (hex_digit (n mod 16))
  else str1 c.

Fixpoint quote_body (s : string) : string :=
  match s with
  | EmptyString => ""
  | String c t => quote_code_unit c +:+ quote_body t
  end.

Definition quote (s : string) : string :=
  str1 DQUOTE +:+ quote_body s +:+ str1 DQUOTE.

Fixpoint join (sep : string) (l : list string) : string :=
  match l with
  | [] => ""
  | [x] => x
  | x :: t => x +:+ sep +:+ join sep t
  end.

Definition stringify (a : list string) : string :=
  "[" +:+ join "," (map quote a) +:+ "]".

(** Reading one escaped code unit back, to show that the text of
    [stringify] tells the strings apart. *)
Definition unhex (c : ascii) : option N :=
  let n := N_of_ascii c in
  if (48 <=? n)%N && (n <=? 57)%N then Some (n - 48)%N
  else if (97 <=? n)%N && (n <=? 102)%N then Some (n - 87)%N
  else None.

Definition unquote_code_unit (s : string) : option (ascii * string) :=
  match s with
  | EmptyString => None
  | String c t =>
      if Ascii.eqb c DQUOTE then None
      else if Ascii.eqb c BACKSLASH then
        match t with
        | String e t' =>
            if Ascii.eqb e "b" then Some ("008"%char, t')
            else if Ascii.eqb e "t" then Some ("009"%char, t')
            else if Ascii.eqb e "n" then Some (LF, t')
            else if Ascii.eqb e "f" then Some ("012"%char, t')
            else if Ascii.eqb e "r" then Some (CR, t')
            else if Ascii.eqb e DQUOTE then Some (DQUOTE, t')
            else if Ascii.eqb e BACKSLASH then Some (BACKSLASH, t')
            else if Ascii.eqb e "u" then
              match t' with
              | String _ (String _ (String h (String l t''))) =>
                  match unhex h, unhex l with
                  | Some a, Some b => Some (ascii_of_N (16 * a + b), t'')
                  | _, _ => None
                  end
              | _ => None
              end
            else None
        | EmptyString => None
        end
      else Some (c, t)
  end.

End JSON.

(** ** Values, objects and completions *)

Inductive value : Type :=
  | VUndefined
  | VNull
  | VBool (b : bool)
  | VNum (n : Z)               (* an integral Number below 10^21 in magnitude *)
  | VStr (s : string)
  | VArr (elems : list value)
  | VObj (props : gmap string value).

Definition typeof (v : value) : string :=
  match v with
  | VUndefined => "undefined"
  | VNull => "object"
  | VBool _ => "boolean"
  | VNum _ => "number"
  | VStr _ => "string"
  | VArr _ => "object"
  | VObj _ => "object"
  end.

Definition Array_isArray (v : value) : bool :=
  match v with VArr _ => true | _ => false end.

(** ToBoolean. *)
Definition truthy (v : value) : bool :=
  match v with
  | VUndefined | VNull => false
  | VBool b => b
  | VNum n => negb (n =? 0)%Z
  | VStr s => negb (String.eqb s "")
  | VArr _ | VObj _ => true
  end.

(** What a function throws: the [NonFatalError] of oclif-commons, a plain
    [Error] with the value of its [$$bundler_fatal] mark (the older
    hook), and the TypeError of the engine: of reading a property of
    [null], of converting to a string an object that has no usable
    [toString], of calling a method an object does not have. *)
Inductive exn : Type :=
  | NonFatalError (message : string)
  | Error (message : string) (bundler_fatal : option bool)
  | TypeError.

Inductive completion (A : Type) : Type :=
  | Return (a : A)
  | Throw (e : exn).
Arguments Return {A} a.
Arguments Throw {A} e.

(** The results of [f] on the elements of [l] from left to right, up to
    the first call that throws. *)
Fixpoint traverse {A B : Type} (f : A -> completion B) (l : list A)
  : completion (list B) :=
  match l with
  | [] => Return []
  | x :: t =>
      match f x with
      | Throw e => Throw e
      | Return y =>
          match traverse f t with
          | Throw e => Throw e
          | Return ys => Return (y :: ys)
          end
      end
  end.

(** [o[k]] for a key [k] that no prototype of [o] defines and that is
    not an index or [length]: the own property of an object, [undefined]
    on every other value, a TypeError on [undefined] and [null].  The
    keys read below are such keys: [cliFlags] and [alias], which no
    prototype defines, and [find], which is read on the entries, plain
    objects, only. *)
Definition get (o : value) (k : string) : completion value :=
  match o with
  | VUndefined | VNull => Throw TypeError
  | VObj props =>
      match props !! k with
      | Some v => Return v
      | None => Return VUndefined
      end
  | _ => Return VUndefined
  end.

(** A property of the flags object, which is an object: [flags[k]]. *)
Definition field (flags : gmap string value) (k : string) : value :=
  match flags !! k with
  | Some v => v
  | None => VUndefined
  end.

(** ** ToString and JSON.stringify on a value of any type

    The flag is declared as a list of strings, but the Array the
    [default] returns is whatever [JSON.parse] has read, and [verify]
    takes it as it comes. *)

(** Number::toString of an integral Number below 10^21 in magnitude: its
    decimal digits, after a minus sign when it is negative. *)
Definition Number_toString (n : Z) : string := pretty n.

(** ToString.  An Array is converted by [Array.prototype.join], which
    writes nothing for [undefined] and [null]; an object by
    [Object.prototype.toString], unless it has an own property
    [toString]: as no value here is a function, that property cannot be
    called, and [valueOf] gives no primitive, so that the conversion
    throws a TypeError. *)
Fixpoint ToString (v : value) : completion string :=
  match v with
  | VUndefined => Return "undefined"
  | VNull => Return "null"
  | VBool b => Return (if b then "true" else "false")
  | VNum n => Return (Number_toString n)
  | VStr s => Return s
  | VArr elems =>
      match traverse (fun element =>
                        match element with
                        | VUndefined | VNull => Return ""
                        | _ => ToString element
                        end) elems with
      | Throw e => Throw e
      | Return texts => Return (JSON.join "," texts)
      end
  | VObj props =>
      match props !! "toString" with
      | Some _ => Throw TypeError
      | None => Return "[object Object]"
      end
  end.

(** The order in which the engine lists the own properties of an object
    (OrdinaryOwnPropertyKeys).  A finite map does not record it, so it
    is a parameter of the one operation that shows it, [JSON.stringify]
    of an object. *)
Definition key_order : Type := gmap string value -> list string.

Section Serialize.

Variable OwnPropertyKeys : key_order.

(** SerializeJSONProperty without a replacer and without indentation;
    [None] is the [undefined] of a value that has no JSON text.  In an
    Array such a value is written [null], in an object its property is
    left out. *)
Fixpoint SerializeJSONProperty (v : value) : option string :=
  match v with
  | VUndefined => None
  | VNull => Some "null"
  | VBool b => Some (if b then "true" else "false")
  | VNum n => Some (Number_toString n)
  | VStr s => Some (JSON.quote s)
  | VArr elems =>
      Some ("[" +:+ JSON.join "," (map (fun element =>
                                         match SerializeJSONProperty element with
                                         | Some text => text
                                         | None => "null"
                                         end) elems) +:+ "]")
  | VObj props =>
      let texts := SerializeJSONProperty <$> props in
      Some ("{" +:+ JSON.join "," (omap (fun P =>
                                         match texts !! P with
                                         | Some (Some strP) =>
                                             Some (JSON.quote P +:+ ":" +:+ strP)
                                         | _ => None
                                         end) (OwnPropertyKeys props)) +:+ "}")
  end.

(** [JSON.stringify(a)] for an Array [a]: SerializeJSONArray. *)
Definition SerializeJSONArray (a : list value) : string :=
  "[" +:+ JSON.join "," (map (fun element =>
                                match SerializeJSONProperty element with
                                | Some text => text
                                | None => "null"
                                end) a) +:+ "]".

End Serialize.

(** ** The alias entries *)

(** [{ find, replacement }] *)
Record AliasEntry : Type := {
  find : string;
  replacement : string
}.

Definition entry_value (e : AliasEntry) : value :=
  VObj {[ "find" := VStr (find e); "replacement" := VStr (replacement e) ]}.

(** ** The accumulator of the reducer

    [x | y] is the bitwise or of ToInt32 of its operands, a Number.  The
    accumulator of the [reduce] below is the Boolean it starts from or
    the Number a [|=] has left. *)
Inductive accumulator : Type :=
  | Boolean (b : bool)
  | Number (n : Z).

(** A Number modulo 2^32, as a signed integer. *)
Definition Int32 (n : Z) : Z :=
  ((n + 2147483648) mod 4294967296 - 2147483648)%Z.

Definition ToInt32 (x : accumulator) : Z :=
  match x with
  | Boolean b => Z.b2z b
  | Number n => Int32 n
  end.

Definition bitwise_or (x y : accumulator) : accumulator :=
  Number (Z.lor (ToInt32 x) (ToInt32 y)).

(** ToBoolean, as the [if] applies it. *)
Definition ToBoolean (x : accumulator) : bool :=
  match x with
  | Boolean b => b
  | Number n => negb (n =? 0)%Z
  end.

(** ** PluginLoader.js *)
Module PluginLoader.

(** *** The callback on an Array of strings

    On a string ToString is the identity: the callback is then a
    function on three arrays of strings and entries.  The callback on
    values of any type follows; on strings it is this one
    ([Values_step_string]). *)

(** The three arrays the callback of [forEach] pushes to. *)
Record loop_state : Type := {
  badEntries : list string;
  warnEntries : list string;
  entries : list AliasEntry
}.

Definition initial : loop_state :=
  {| badEntries := []; warnEntries := []; entries := [] |}.

(** [entries.reduce((accum, value) => accum |= value.find === key, false)]:
    on an empty array the result is the initial [false]; after a [|=] it
    is a Number.  The [if] tests the result for truth. *)
Definition reduce_overrides (entries : list AliasEntry) (key : string) : accumulator :=
  fold_left (fun accum value =>
               bitwise_or accum (Boolean (String.eqb (find value) key)))
            entries (Boolean false).

(** The callback of [flags.alias.forEach]. *)
Definition step (st : loop_state) (entry : string) : loop_state :=
  match exec regex entry with
  | Some matches =>
      if (3 <=? length matches)%nat then
        let m1 := nth 1 matches "" in
        let m2 := nth 2 matches "" in
        if ToBoolean (reduce_overrides (entries st) m1) then
          {| badEntries := badEntries st;
             warnEntries := warnEntries st ++ [entry];
             entries := entries st |}
        else
          {| badEntries := badEntries st;
             warnEntries := warnEntries st;
             entries := entries st ++ [{| find := m1; replacement := m2 |}] |}
      else
        {| badEntries := badEntries st ++ [entry];
           warnEntries := warnEntries st;
           entries := entries st |}
  | None =>
      {| badEntries := badEntries st ++ [entry];
         warnEntries := warnEntries st;
         entries := entries st |}
  end.

Definition forEach (a : list string) : loop_state :=
  fold_left step a initial.

Definition failure_header : string :=
  "plugin-alias verification failure:" +:+ str1 LF.

(** [errorMessage] after the two conditional [+=]. *)
Definition errorMessage (st : loop_state) : string :=
  let m0 := failure_header in
  let m1 :=
    if (0 <? length (badEntries st))%nat then
      m0 +:+ ("- can not parse " +:+ JSON.stringify (badEntries st) +:+ " each "
              +:+ "entry must be a 'string' in the format of '<xxx>=<yyy>'.")
    else m0 in
  if (0 <? length (warnEntries st))%nat then
    m1 +:+ ((if (0 <? length (badEntries st))%nat then str1 LF else "")
            +:+ "- the following "
            +:+ "entries overwrite previous entries "
            +:+ JSON.stringify (warnEntries st) +:+ ".")
  else m1.

(** [{ entries }] *)
Definition alias_options (es : list AliasEntry) : value :=
  VObj {[ "entries" := VArr (map entry_value es) ]}.

(** *** The callback on an Array of any values

    [regex.exec(entry)] converts [entry] with ToString, which may throw;
    [badEntries] and [warnEntries] keep the entry itself, and
    [JSON.stringify] writes it in the message. *)
Module Values.

Record loop_state : Type := {
  badEntries : list value;
  warnEntries : list value;
  entries : list AliasEntry
}.

Definition initial : loop_state :=
  {| badEntries := []; warnEntries := []; entries := [] |}.

Definition step (st : loop_state) (entry : value) : completion loop_state :=
  match ToString entry with
  | Throw e => Throw e
  | Return text =>
      Return
        match exec regex text with
        | Some matches =>
            if (3 <=? length matches)%nat then
              let m1 := nth 1 matches "" in
              let m2 := nth 2 matches "" in
              if ToBoolean (reduce_overrides (entries st) m1) then
                {| badEntries := badEntries st;
                   warnEntries := warnEntries st ++ [entry];
                   entries := entries st |}
              else
                {| badEntries := badEntries st;
                   warnEntries := warnEntries st;
                   entries := entries st ++ [{| find := m1; replacement := m2 |}] |}
            else
              {| badEntries := badEntries st ++ [entry];
                 warnEntries := warnEntries st;
                 entries := entries st |}
        | None =>
            {| badEntries := badEntries st ++ [entry];
               warnEntries := warnEntries st;
               entries := entries st |}
        end
  end.

(** [forEach] from the element it has reached: a callback that throws
    ends the loop. *)
Fixpoint forEach_from (st : loop_state) (a : list value) : completion loop_state :=
  match a with
  | [] => Return st
  | entry :: later =>
      match step st entry with
      | Throw e => Throw e
      | Return st' => forEach_from st' later
      end
  end.

Definition forEach (a : list value) : completion loop_state :=
  forEach_from initial a.

(** [errorMessage] after the two conditional [+=], from the two arrays
    it is made of. *)
Definition errorMessage (OwnPropertyKeys : key_order)
    (badEntries warnEntries : list value) : string :=
  let m0 := failure_header in
  let m1 :=
    if (0 <? length badEntries)%nat then
      m0 +:+ ("- can not parse " +:+ SerializeJSONArray OwnPropertyKeys badEntries
              +:+ " each "
              +:+ "entry must be a 'string' in the format of '<xxx>=<yyy>'.")
    else m0 in
  if (0 <? length warnEntries)%nat then
    m1 +:+ ((if (0 <? length badEntries)%nat then str1 LF else "")
            +:+ "- the following "
            +:+ "entries overwrite previous entries "
            +:+ SerializeJSONArray OwnPropertyKeys warnEntries +:+ ".")
  else m1.

End Values.

(** [verify(flags)]: the flags object as the callback leaves it, and how
    the callback completes.  A TypeError of the loop gets out before
    [flags.alias] is assigned. *)
Definition verify (OwnPropertyKeys : key_order) (flags : gmap string value)
  : gmap string value * completion unit :=
  match field flags "alias" with
  | VArr a =>
      match Values.forEach a with
      | Throw e => (flags, Throw e)
      | Return st =>
          let flags' := <["alias" := alias_options (Values.entries st)]> flags in
          let errorMessage :=
            Values.errorMessage OwnPropertyKeys
              (Values.badEntries st) (Values.warnEntries st) in
          if negb (String.eqb errorMessage failure_header) then
            (flags', Throw (NonFatalError errorMessage))
          else
            (flags', Return tt)
      end
  | _ => (flags, Return tt)
  end.

Section Builtins.

(** [JSON.parse]: the value parsed, or the message of the SyntaxError. *)
Variable JSON_parse : string -> value + string.

(** The call of [@rollup/plugin-alias]: the plugin it returns, or what
    it throws. *)
Variable Plugin : Type.
Variable alias : value -> completion Plugin.

(** The [default] of the flag, for the value [prefix] of
    [global.$$flag_env_prefix] and the object [envVars]. *)
Definition default (prefix : string) (envVars : gmap string value)
  : completion value :=
  let envVar := prefix +:+ "_ALIAS" in
  match field envVars envVar with
  | VStr text =>
      match JSON_parse text with
      | inr message =>
          Throw (NonFatalError
            ("Could not parse '" +:+ envVar +:+ "' as a JSON array;" +:+ str1 LF
             +:+ message))
      | inl result =>
          if negb (Array_isArray result) then
            Throw (NonFatalError ("Please format '" +:+ envVar +:+ "' as a JSON array."))
          else Return result
      end
  | _ => Return VUndefined
  end.

(** [getInputPlugin(bundleData = {})]: [Some] of the plugin returned, or
    [None] when the function ends without a [return]; what [alias]
    throws gets out. *)
Definition getInputPlugin (bundleData : value) : completion (option Plugin) :=
  let bundleData :=
    match bundleData with VUndefined => VObj ∅ | _ => bundleData end in
  match get bundleData "cliFlags" with
  | Throw e => Throw e
  | Return cliFlags =>
      if truthy cliFlags then
        match get cliFlags "alias" with
        | Throw e => Throw e
        | Return a =>
            if String.eqb (typeof a) "object" then
              match alias a with
              | Throw e => Throw e
              | Return plugin => Return (Some plugin)
              end
            else Return None
        end
      else Return None
  end.

End Builtins.

End PluginLoader.

(** ** The older hook, init.js *)
Module InitHook.

(** *** The callback on an Array of strings *)

Record loop_state : Type := {
  badEntries : list string;
  entries : list AliasEntry
}.

Definition initial : loop_state := {| badEntries := []; entries := [] |}.

Definition step (st : loop_state) (entry : string) : loop_state :=
  match exec regex entry with
  | Some matches =>
      if (3 <=? length matches)%nat then
        {| badEntries := badEntries st;
           entries := entries st
             ++ [{| find := nth 1 matches ""; replacement := nth 2 matches "" |}] |}
      else {| badEntries := badEntries st ++ [entry]; entries := entries st |}
  | None => {| badEntries := badEntries st ++ [entry]; entries := entries st |}
  end.

Definition forEach (a : list string) : loop_state :=
  fold_left step a initial.

Definition errorMessage (st : loop_state) : string :=
  "plugin-alias verify; can not parse " +:+ JSON.stringify (badEntries st) +:+ " each "
  +:+ "entry must be in the format of <xxx>=<yyy>.".

(** *** The callback on an Array of any values *)
Module Values.

Record loop_state : Type := {
  badEntries : list value;
  entries : list AliasEntry
}.

Definition initial : loop_state := {| badEntries := []; entries := [] |}.

Definition step (st : loop_state) (entry : value) : completion loop_state :=
  match ToString entry with
  | Throw e => Throw e
  | Return text =>
      Return
        match exec regex text with
        | Some matches =>
            if (3 <=? length matches)%nat then
              {| badEntries := badEntries st;
                 entries := entries st
                   ++ [{| find := nth 1 matches ""; replacement := nth 2 matches "" |}] |}
            else {| badEntries := badEntries st ++ [entry]; entries := entries st |}
        | None => {| badEntries := badEntries st ++ [entry]; entries := entries st |}
        end
  end.

Fixpoint forEach_from (st : loop_state) (a : list value) : completion loop_state :=
  match a with
  | [] => Return st
  | entry :: later =>
      match step st entry with
      | Throw e => Throw e
      | Return st' => forEach_from st' later
      end
  end.

Definition forEach (a : list value) : completion loop_state :=
  forEach_from initial a.

Definition errorMessage (OwnPropertyKeys : key_order) (st : loop_state) : string :=
  "plugin-alias verify; can not parse "
  +:+ SerializeJSONArray OwnPropertyKeys (badEntries st) +:+ " each "
  +:+ "entry must be in the format of <xxx>=<yyy>.".

End Values.

(** [verify(flags)]; the entries go to [flags.alias] as a bare Array. *)
Definition verify (OwnPropertyKeys : key_order) (flags : gmap string value)
  : gmap string value * completion unit :=
  match field flags "alias" with
  | VArr a =>
      match Values.forEach a with
      | Throw e => (flags, Throw e)
      | Return st =>
          let flags' := <["alias" := VArr (map entry_value (Values.entries st))]> flags in
          if (0 <? length (Values.badEntries st))%nat then
            (flags', Throw (Error (Values.errorMessage OwnPropertyKeys st) (Some false)))
          else
            (flags', Return tt)
      end
  | _ => (flags, Return tt)
  end.

Section Builtins.

Variable JSON_parse : string -> value + string.

(** The [default] of the flag over [process.env]. *)
Definition default (env : gmap string value) : completion value :=
  match field env "DEPLOY_ALIAS" with
  | VStr text =>
      match JSON_parse text with
      | inr message =>
          Throw (Error ("Could not parse 'DEPLOY_ALIAS' as a JSON array;" +:+ str1 LF
                        +:+ message) (Some false))
      | inl result =>
          if negb (Array_isArray result) then
            Throw (Error "Please format 'DEPLOY_ALIAS' as a JSON array." (Some false))
          else Return result
      end
  | _ => Return VUndefined
  end.

End Builtins.

End InitHook.

(** ** [verify] of PluginLoader.js over the store of objects

    What a call could leave behind for the next one lives in objects:
    the RegExp object of the literal, whose [lastIndex] [exec] reads and
    writes when the pattern has the [g] or the [y] flag, the Arrays the
    callback pushes to, and the flags object itself.  A store lists the
    objects that exist, in the order of their creation; an object is
    named by its position in the store. *)
Module Store.

Record RegExpObject : Type := {
  matcher : RegExp.regex;
  global : bool;
  sticky : bool;
  lastIndex : nat
}.

Inductive object : Type :=
  | RegExpObj (R : RegExpObject)
  | ArrayObj (elems : list value)
  | PlainObj (props : gmap string value).

Abbreviation store := (list object).

(** A computation on the store that returns or throws. *)
Definition St (A : Type) : Type := store -> store * completion A.

Definition ret {A : Type} (a : A) : St A := fun σ => (σ, Return a).

Definition bind {A B : Type} (m : St A) (k : A -> St B) : St B :=
  fun σ =>
    match m σ with
    | (σ', Return a) => k a σ'
    | (σ', Throw e) => (σ', Throw e)
    end.

#[local] Notation "x <- m ;; k" := (bind m (fun x => k))
  (at level 100, m at next level, right associativity).

Definition lift {A : Type} (c : completion A) : St A := fun σ => (σ, c).

(** A new object, at the end of the store. *)
Definition new (o : object) : St nat := fun σ => (σ ++ [o], Return (length σ)).

(** *** RegExp.prototype.exec *)

Definition set_lastIndex (R : RegExpObject) (n : nat) : RegExpObject :=
  {| matcher := matcher R; global := global R; sticky := sticky R; lastIndex := n |}.

(** The input from index [n] on. *)
Fixpoint from_index (n : nat) (input : string) : string :=
  match n, input with
  | 0, _ => input
  | S n', String _ t => from_index n' t
  | S _, EmptyString => EmptyString
  end.

(** The match tried at index [i] and, unless the pattern is sticky, at
    each index after it; [input] is the input from index [i] on.  The
    index where the match ends, and the array of the result. *)
Fixpoint search (r : RegExp.regex) (sticky : bool) (input : string) (i : nat)
  : option (nat * list string) :=
  match alts r input with
  | x :: _ => Some (i + String.length (matched x), matched x :: captures x)
  | [] =>
      if sticky then None
      else match input with
           | EmptyString => None
           | String _ t => search r sticky t (S i)
           end
  end.

(** RegExpBuiltinExec: the search starts at [lastIndex] when the pattern
    has the [g] or the [y] flag and at 0 otherwise; with one of the two
    flags [lastIndex] becomes the end of the match, or 0 when there is
    none; without them it is left as it is. *)
Definition RegExpBuiltinExec (R : RegExpObject) (input : string)
  : RegExpObject * option (list string) :=
  let tracks := global R || sticky R in
  let start := if tracks then lastIndex R else 0 in
  let failure := (if tracks then set_lastIndex R 0 else R, None) in
  if (String.length input <? start)%nat then failure
  else
    match search (matcher R) (sticky R) (from_index start input) start with
    | None => failure
    | Some (e, result) => (if tracks then set_lastIndex R e else R, Some result)
    end.

(** [regex.exec(argument)]: the argument is converted with ToString. *)
Definition RegExp_prototype_exec (regex : nat) (argument : value)
  : St (option (list string)) :=
  fun σ =>
    match σ !! regex with
    | Some (RegExpObj R) =>
        match ToString argument with
        | Throw e => (σ, Throw e)
        | Return input =>
            let (R', result) := RegExpBuiltinExec R input in
            (<[regex := RegExpObj R']> σ, Return result)
        end
    | _ => (σ, Throw TypeError)
    end.

(** *** Arrays and the flags object *)

(** The elements of an Array; on another object the method that would
    read them is missing. *)
Definition Array_elements (array : nat) : St (list value) :=
  fun σ =>
    match σ !! array with
    | Some (ArrayObj elems) => (σ, Return elems)
    | _ => (σ, Throw TypeError)
    end.

(** [array.push(v)] *)
Definition Array_prototype_push (array : nat) (v : value) : St unit :=
  fun σ =>
    match σ !! array with
    | Some (ArrayObj elems) => (<[array := ArrayObj (elems ++ [v])]> σ, Return tt)
    | _ => (σ, Throw TypeError)
    end.

(** [o[k]] and [o[k] = v] for a plain object [o], which the flags
    object is; a RegExp object and an Array have no property [alias]. *)
Definition Get (o : nat) (k : string) : St value :=
  fun σ =>
    match σ !! o with
    | Some (PlainObj props) => (σ, Return (field props k))
    | Some _ => (σ, Return VUndefined)
    | None => (σ, Throw TypeError)
    end.

Definition Set_ (o : nat) (k : string) (v : value) : St unit :=
  fun σ =>
    match σ !! o with
    | Some (PlainObj props) => (<[o := PlainObj (<[k := v]> props)]> σ, Return tt)
    | _ => (σ, Throw TypeError)
    end.

(** *** The callback and [verify] *)

(** [v === s] for a string [s]. *)
Definition strictly_equals (v : value) (s : string) : bool :=
  match v with
  | VStr t => String.eqb t s
  | _ => false
  end.

(** [entries.reduce((accum, value) => accum |= value.find === key, false)]
    on the elements of the Array. *)
Definition reduce_overrides (elems : list value) (key : string)
  : completion accumulator :=
  fold_left (fun accum value =>
               match accum with
               | Throw e => Throw e
               | Return x =>
                   match get value "find" with
                   | Throw e => Throw e
                   | Return f => Return (bitwise_or x (Boolean (strictly_equals f key)))
                   end
               end)
            elems (Return (Boolean false)).

(** The callback of [flags.alias.forEach], over the RegExp object and
    the three Arrays of the call. *)
Definition callback (regex badEntries warnEntries entries : nat) (entry : value)
  : St unit :=
  matches <- RegExp_prototype_exec regex entry ;;
  match matches with
  | Some matches =>
      if (3 <=? length matches)%nat then
        elems <- Array_elements entries ;;
        accum <- lift (reduce_overrides elems (nth 1 matches "")) ;;
        if ToBoolean accum then Array_prototype_push warnEntries entry
        else
          Array_prototype_push entries
            (entry_value {| find := nth 1 matches ""; replacement := nth 2 matches "" |})
      else Array_prototype_push badEntries entry
  | None => Array_prototype_push badEntries entry
  end.

Fixpoint forEach (callback : value -> St unit) (a : list value) : St unit :=
  match a with
  | [] => ret tt
  | entry :: later => _ <- callback entry ;; forEach callback later
  end.

(** [verify(flags)] for the flags object at [flags].  Evaluating the
    literal [/(.+)=(.+)/] makes a new RegExp object, without flags and
    with [lastIndex] 0; the three [[]] make three new Arrays. *)
Definition verify (OwnPropertyKeys : key_order) (flags : nat) : St unit :=
  regex <- new (RegExpObj {| matcher := regex; global := false; sticky := false;
                             lastIndex := 0 |}) ;;
  flags_alias <- Get flags "alias" ;;
  match flags_alias with
  | VArr a =>
      badEntries <- new (ArrayObj []) ;;
      warnEntries <- new (ArrayObj []) ;;
      entries <- new (ArrayObj []) ;;
      _ <- forEach (callback regex badEntries warnEntries entries) a ;;
      elems <- Array_elements entries ;;
      _ <- Set_ flags "alias" (VObj {[ "entries" := VArr elems ]}) ;;
      bad <- Array_elements badEntries ;;
      warn <- Array_elements warnEntries ;;
      let errorMessage := PluginLoader.Values.errorMessage OwnPropertyKeys bad warn in
      if negb (String.eqb errorMessage PluginLoader.failure_header) then
        lift (Throw (NonFatalError errorMessage))
      else ret tt
  | _ => ret tt
  end.

End Store.

(** ** Notions the statements below are written in *)

(** What the callbacks of [forEach] make of an entry the pattern
    matches: [{ find: matches[1], replacement: matches[2] }]; [None] for
    an entry they reject. *)
Definition parse (entry : string) : option AliasEntry :=
  match exec regex entry with
  | Some matches =>
      if (3 <=? length matches)%nat then
        Some {| find := nth 1 matches ""; replacement := nth 2 matches "" |}
      else None
  | None => None
  end.

Fixpoint all_chars (p : ascii -> bool) (s : string) : bool :=
  match s with
  | EmptyString => true
  | String c t => p c && all_chars p t
  end.

(** No line terminator in [s]: [.+] can run over all of it. *)
Definition one_line (s : string) : bool :=
  all_chars (fun c => negb (is_line_terminator c)) s.

(** [s] is empty or begins with a line terminator: a run of [.+] that
    reaches [s] stops there. *)
Definition line_break_or_end (s : string) : bool :=
  match s with
  | EmptyString => true
  | String c _ => is_line_terminator c
  end.

(** [s] is empty or ends with a line terminator. *)
Fixpoint ends_with_line_break (s : string) : bool :=
  match s with
  | EmptyString => true
  | String c EmptyString => is_line_terminator c
  | String _ t => ends_with_line_break t
  end.

(** A run of [.+] from the start of [u +:+ w] does not reach into [w]. *)
Definition stops (u w : string) : Prop :=
  one_line u = false \/ line_break_or_end w = true.

(** Every [=] of [s] is its last character. *)
Fixpoint equals_only_last (s : string) : bool :=
  match s with
  | EmptyString => true
  | String c t =>
      if Ascii.eqb c EQUALS then String.eqb t "" else equals_only_last t
  end.

Fixpoint count_char (c : ascii) (s : string) : nat :=
  match s with
  | EmptyString => 0
  | String c' t => (if Ascii.eqb c' c then 1 else 0) + count_char c t
  end.

(** The split at the first [c] of [s], as the specification words it:
    what stands before it, and everything after it. *)
Fixpoint before_first (c : ascii) (s : string) : string :=
  match s with
  | EmptyString => ""
  | String c' t => if Ascii.eqb c' c then "" else String c' (before_first c t)
  end.

Fixpoint after_first (c : ascii) (s : string) : string :=
  match s with
  | EmptyString => ""
  | String c' t => if Ascii.eqb c' c then t else after_first c t
  end.

(** The bad entries of a run, as the specification words them: the
    strings that do not match, in input order. *)
Definition bad_entries (a : list string) : list string :=
  List.filter (fun s => match parse s with None => true | Some _ => false end) a.

(** The [find] keys of the entries of [earlier] that match. *)
Definition keys_of (earlier : list string) : list string :=
  find <$> omap parse earlier.

(** The duplicate entries of a run, as the specification words them: the
    strings that match and whose [find] is the [find] of a string that
    matches and stands earlier in the input; in input order.  [earlier]
    is the input read so far. *)
Fixpoint duplicates_after (earlier a : list string) : list string :=
  match a with
  | [] => []
  | s :: t =>
      match parse s with
      | Some e =>
          if bool_decide (find e ∈ keys_of earlier)
          then s :: duplicates_after (earlier ++ [s]) t
          else duplicates_after (earlier ++ [s]) t
      | None => duplicates_after (earlier ++ [s]) t
      end
  end.

Definition duplicate_entries (a : list string) : list string :=
  duplicates_after [] a.

(** The accepted set: the first entry of each [find], in input order. *)
Fixpoint accepted_after (earlier a : list string) : list AliasEntry :=
  match a with
  | [] => []
  | s :: t =>
      match parse s with
      | Some e =>
          if bool_decide (find e ∈ keys_of earlier)
          then accepted_after (earlier ++ [s]) t
          else e :: accepted_after (earlier ++ [s]) t
      | None => accepted_after (earlier ++ [s]) t
      end
  end.

Definition accepted_entries (a : list string) : list AliasEntry :=
  accepted_after [] a.

(** The invariant of the loop: the accepted entries have the [find] keys
    of the input read so far. *)
Definition keys_agree (earlier : list string) (st : PluginLoader.loop_state) : Prop :=
  forall k, k ∈ find <$> PluginLoader.entries st <-> k ∈ keys_of earlier.

(** How [verify] completes after a loop that ends in [st]. *)
Definition completion_of (st : PluginLoader.loop_state) : completion unit :=
  match PluginLoader.badEntries st, PluginLoader.warnEntries st with
  | [], [] => Return tt
  | _, _ => Throw (NonFatalError (PluginLoader.errorMessage st))
  end.

(** The message of the verification error, as the specification words
    it: the header, the bad entries when there are some, the duplicate
    entries when there are some, and a line break between the two. *)
Definition failure_message (bad dup : list string) : string :=
  PluginLoader.failure_header
  +:+ match bad with
      | [] => ""
      | _ :: _ =>
          "- can not parse " +:+ JSON.stringify bad
          +:+ " each entry must be a 'string' in the format of '<xxx>=<yyy>'."
      end
  +:+ match bad, dup with
      | _ :: _, _ :: _ => str1 LF
      | _, _ => ""
      end
  +:+ match dup with
      | [] => ""
      | _ :: _ =>
          "- the following entries overwrite previous entries "
          +:+ JSON.stringify dup +:+ "."
      end.

(** The alias value a configuration object carries: [cliFlags.alias]
    when [cliFlags] is an object, [undefined] otherwise. *)
Definition carried_alias (bundleData : value) : value :=
  match bundleData with
  | VObj props =>
      match props !! "cliFlags" with
      | Some (VObj flags) => field flags "alias"
      | _ => VUndefined
      end
  | _ => VUndefined
  end.

(** The arrays of a loop on strings, as arrays of values. *)
Definition as_values (st : PluginLoader.loop_state) : PluginLoader.Values.loop_state :=
  {| PluginLoader.Values.badEntries := VStr <$> PluginLoader.badEntries st;
     PluginLoader.Values.warnEntries := VStr <$> PluginLoader.warnEntries st;
     PluginLoader.Values.entries := PluginLoader.entries st |}.

Definition InitHook_as_values (st : InitHook.loop_state) : InitHook.Values.loop_state :=
  {| InitHook.Values.badEntries := VStr <$> InitHook.badEntries st;
     InitHook.Values.entries := InitHook.entries st |}.

(** The objects of a call of [verify] that has reached the state [st]
    of its loop: the RegExp object and the three Arrays. *)
Definition objects_of (st : PluginLoader.Values.loop_state) : Store.store :=
  [Store.RegExpObj {| Store.matcher := regex; Store.global := false;
                      Store.sticky := false; Store.lastIndex := 0 |};
   Store.ArrayObj (PluginLoader.Values.badEntries st);
   Store.ArrayObj (PluginLoader.Values.warnEntries st);
   Store.ArrayObj (map entry_value (PluginLoader.Values.entries st))].

(** A key order for the examples: the keys as the map lists them. *)
Definition keys_as_listed : key_order := fun props => (map_to_list props).*1.

(** An aliasing transform for the examples: it throws on [null], whose
    properties cannot be read, as [@rollup/plugin-alias] does, and
    returns its options otherwise. *)
Definition alias_rejecting_null (options : value) : completion value :=
  match options with
  | VNull => Throw TypeError
  | _ => Return options
  end.

(** A flags object for the examples: the [alias] flag and one more. *)
Definition flags_with (a : list string) : gmap string value :=
  {[ "alias" := VArr (VStr <$> a); "watch" := VBool true ]}.

(** A store for the examples: two flags objects that hold the same
    array, of which the second string is a bad entry and the third a
    duplicate entry. *)
Definition two_flags_objects : Store.store :=
  [Store.PlainObj (flags_with ["x=y"; "oops"; "x=z"]);
   Store.PlainObj (<["verbose" := VBool false]> (flags_with ["x=y"; "oops"; "x=z"]))].

(** A configuration for the examples: [{ cliFlags: { alias: { entries: [] } } }]. *)
Definition configuration_without_entries : value :=
  VObj {[ "cliFlags" := VObj {[ "alias" := PluginLoader.alias_options [] ]} ]}.

(** The same, with an array of values of any type. *)
Definition flags_holding (a : list value) : gmap string value :=
  {[ "alias" := VArr a; "watch" := VBool true ]}.

(** [JSON.parse] at three texts, for the examples: an empty array, an
    array of one string and an object; every other text is answered as
    [not json] is, with a SyntaxError. *)
Definition JSON_parse_table (text : string) : value + string :=
  if String.eqb text "[]" then inl (VArr [])
  else if String.eqb text ("[" +:+ JSON.quote "x=y" +:+ "]") then inl (VArr [VStr "x=y"])
  else if String.eqb text ("{" +:+ JSON.quote "a" +:+ ":" +:+ JSON.quote "b" +:+ "}")
  then inl (VObj {[ "a" := VStr "b" ]})
  else inr "Unexpected token".

(** ** The calls to the framework: registration and the init hooks

    The rest of the two files calls into the plugin manager, the
    eventbus, [process.stdout] and the hook's own [this.error].  A
    program is run against the list of calls made so far; every call is
    added to the list, and [responds] says whether the framework lets it
    return or makes it throw. *)
Module Framework.

(** [global.$$flag_env_prefix] and [process.env], read when a [default]
    runs. *)
Record ambient : Type := {
  flag_env_prefix : string;
  process_env : gmap string value
}.

(** The options given to [flags.string]; [default] takes the ambient
    state and its argument, [None] when the caller passes none. *)
Record flag_options : Type := {
  char : string;
  description : string;
  multiple : bool;
  default : ambient -> option (gmap string value) -> completion value
}.

(** What [trigger] is given: the object of a flag handler, with its
    string properties, its [flags.alias] and its [verify], or the text of
    a log line. *)
Inductive payload : Type :=
  | FlagHandler (properties : list (string * string)) (alias : flag_options)
      (verify : gmap string value -> gmap string value * completion unit)
  | Message (text : string).

Section Programs.

Variable JSON_parse : string -> value + string.
Variable OwnPropertyKeys : key_order.
Variable Plugin : Type.
Variable alias : value -> completion Plugin.

Inductive call : Type :=
  | pluginManager_add (name instance : string) (options : option (gmap string value))
  | eventbus_trigger (event : string) (p : payload)
  | eventbus_on (event : string) (callback : value -> completion (option Plugin))
      (context : string)
  | stdout_write (text : string)
  | this_error (e : exn).

(** Whether the framework makes a call throw, given the calls before it. *)
Variable responds : list call -> call -> option exn.

Definition M (A : Type) : Type := list call -> list call * completion A.

Definition ret {A : Type} (a : A) : M A := fun h => (h, Return a).

Definition bind {A B : Type} (m : M A) (k : A -> M B) : M B :=
  fun h =>
    match m h with
    | (h', Return a) => k a h'
    | (h', Throw e) => (h', Throw e)
    end.

Definition perform (c : call) : M unit :=
  fun h =>
    (h ++ [c], match responds h c with Some e => Throw e | None => Return tt end).

(** [try { body } catch (error) { handler(error) }] *)
Definition try_catch (body : M unit) (handler : exn -> M unit) : M unit :=
  fun h =>
    match body h with
    | (h', Return a) => (h', Return a)
    | (h', Throw e) => handler e h'
    end.

(** *** PluginLoader.js *)

(** [s_CONFLICT_PACKAGES] and [s_PACKAGE_NAME], behind their getters. *)
Definition conflictPackages : list string := ["@rollup/plugin-alias"].
Definition packageName : string := "@typhonjs-node-rollup/plugin-alias".

(** The object [addFlags] hands to the flag handler.  The [default] has
    the parameter [envVars = process.env]. *)
Definition alias_flag_handler : payload :=
  FlagHandler
    [("command", "bundle"); ("pluginName", packageName)]
    {| char := "a";
       description := "Map imports to different modules.";
       multiple := true;
       default := fun amb envVars =>
         PluginLoader.default JSON_parse (flag_env_prefix amb)
           (match envVars with Some e => e | None => process_env amb end) |}
    (PluginLoader.verify OwnPropertyKeys).

(** [addFlags(eventbus)] *)
Definition addFlags : M unit :=
  perform (eventbus_trigger "typhonjs:oclif:system:flaghandler:add" alias_flag_handler).

(** [onPluginLoad(ev)], on [ev.eventbus]. *)
Definition onPluginLoad : M unit :=
  bind (perform (eventbus_on "typhonjs:oclif:bundle:plugins:main:input:get"
                   (PluginLoader.getInputPlugin Plugin alias) "PluginLoader"))
       (fun _ => addFlags).

(** The init hook that adds PluginLoader: [options.id] and
    [options.flagsModule] are its two inputs. *)
Definition init_hook (id : string) (flagsModule : value) : M unit :=
  try_catch
    (bind (perform (pluginManager_add packageName "PluginLoader"
                      (Some {[ "id" := VStr id; "flagsModule" := flagsModule ]})))
          (fun _ =>
             perform (eventbus_trigger "log:debug"
                        (Message ("plugin-alias init hook running '" +:+ id +:+ "'.")))))
    (fun error => perform (this_error error)).

(** *** The older init.js *)

(** [PluginHandler.test()] and [PluginHandler.onPluginLoad(ev)]. *)
Definition test : string := "some testing".
Definition PluginHandler_onPluginLoad : M unit := ret tt.

(** The object [s_ADD_FLAGS] hands to the flag handler.  The [default]
    has no parameter. *)
Definition older_flag_handler (command : string) : payload :=
  FlagHandler
    [("command", command); ("plugin", "plugin-alias")]
    {| char := "a";
       description := "Map imports to different modules.";
       multiple := true;
       default := fun amb _ => InitHook.default JSON_parse (process_env amb) |}
    (InitHook.verify OwnPropertyKeys).

(** [s_ADD_FLAGS(command)]: the [switch] has the one case [build]. *)
Definition s_ADD_FLAGS (command : string) : M unit :=
  if String.eqb command "build" then
    perform (eventbus_trigger "oclif:system:flaghandler:add" (older_flag_handler command))
  else ret tt.

(** [module.exports = async function(opts)], for [opts.id]. *)
Definition older_init_hook (id : string) : M unit :=
  try_catch
    (bind (perform (pluginManager_add "plugin-alias" "PluginHandler" None))
          (fun _ =>
             bind (s_ADD_FLAGS id)
                  (fun _ =>
                     perform (stdout_write
                                ("plugin-alias init hook running " +:+ id +:+ str1 LF)))))
    (fun error => perform (this_error error)).

(** *** Notions for the statements about the hooks *)

(** Every call of [cs], made in order after the calls [h], returns. *)
Fixpoint all_return (h cs : list call) : Prop :=
  match cs with
  | [] => True
  | c :: cs' => responds h c = None /\ all_return (h ++ [c]) cs'
  end.

(** The calls of [cs] one after the other, up to the first that throws. *)
Fixpoint perform_all (cs : list call) : M unit :=
  match cs with
  | [] => ret tt
  | c :: cs' => bind (perform c) (fun _ => perform_all cs')
  end.

(** How a call completes after the calls [h]. *)
Definition completion_after (h : list call) (c : call) : completion unit :=
  match responds h c with Some e => Throw e | None => Return tt end.

End Programs.

End Framework.

(** * Properties *)

(** ** Strings *)

#[local] Arguments String.append !s1 s2 : simpl nomatch.

Lemma append_assoc (s1 s2 s3 : string) : (s1 +:+ s2) +:+ s3 = s1 +:+ (s2 +:+ s3).
Proof. induction s1 as [|c s1 IH]; simpl; [reflexivity | now rewrite IH]. Qed.

Lemma append_nil_r (s : string) : s +:+ "" = s.
Proof. induction s as [|c s IH]; simpl; [reflexivity | now rewrite IH]. Qed.

Lemma append_eq_l (s t : string) : s +:+ t = s -> t = "".
Proof.
  induction s as [|c s IH]; simpl; intros H; [assumption |].
  injection H as H. now apply IH.
Qed.

Lemma append_nonempty (s t : string) : t <> "" -> s +:+ t <> "".
Proof. destruct s; simpl; [trivial | discriminate]. Qed.

Lemma all_chars_app (p : ascii -> bool) (s t : string) :
  all_chars p (s +:+ t) = all_chars p s && all_chars p t.
Proof.
  induction s as [|c s IH]; simpl; [reflexivity |].
  rewrite IH. now rewrite andb_assoc.
Qed.

(** ** The pattern *)

(** [=(.+)], the pattern after its first group. *)
Local Abbreviation equals_dots := (Seq (Atom (PatternChar EQUALS)) (Group (Plus Dot))).

Lemma flat_map_nil {A B : Type} (f : A -> list B) (l : list A) :
  (forall x, In x l -> f x = []) -> flat_map f l = [].
Proof.
  induction l as [|a l IH]; simpl; intros H; [reflexivity |].
  rewrite (H a) by now left. simpl. apply IH. intros x Hx. apply H. now right.
Qed.

(** What [a+] can take: a non-empty prefix of characters of the atom. *)
Lemma plus_alts_In (a : atom) (s : string) (x : alt) :
  In x (plus_alts a s) ->
  captures x = [] /\ matched x <> "" /\ s = matched x +:+ rest x
  /\ all_chars (atom_matches a) (matched x) = true.
Proof.
  revert x. induction s as [|c s IH]; simpl; intros x Hx; [contradiction |].
  destruct (atom_matches a c) eqn:Hc; [| contradiction].
  apply in_app_or in Hx. destruct Hx as [Hx | [<- | []]].
  - apply in_map_iff in Hx. destruct Hx as (y & <- & Hy).
    destruct (IH y Hy) as (_ & _ & Hs & Hall). simpl.
    repeat split; [discriminate | now rewrite <- Hs | now rewrite Hc, Hall].
  - simpl. repeat split; [discriminate | now rewrite Hc].
Qed.

(** On an input of one line, greedy [.+] first offers all of it. *)
Lemma plus_alts_dot_head (s : string) :
  s <> "" -> one_line s = true ->
  exists more, plus_alts Dot s = Alt s [] "" :: more.
Proof.
  induction s as [|c s IH]; intros Hne Hline; [contradiction |].
  unfold one_line in Hline. simpl in Hline. apply andb_true_iff in Hline.
  destruct Hline as [Hc Hs]. simpl. rewrite Hc.
  destruct s as [|c' s'].
  - exists []. reflexivity.
  - destruct (IH ltac:(discriminate) Hs) as [more ->]. simpl. eauto.
Qed.

(** The alternatives of [.+] before and after a prefix [f] of one line:
    first the ones that run past [f], then [f] itself. *)
Lemma plus_alts_dot_app (f t : string) :
  f <> "" -> one_line f = true ->
  exists shorter,
    plus_alts Dot (f +:+ t)
    = (map (fun x => Alt (f +:+ matched x) [] (rest x)) (plus_alts Dot t)
       ++ Alt f [] t :: shorter)%list.
Proof.
  induction f as [|c f IH]; intros Hne Hline; [contradiction |].
  unfold one_line in Hline. simpl in Hline. apply andb_true_iff in Hline.
  destruct Hline as [Hc Hf]. simpl. rewrite Hc.
  destruct f as [|c' f'].
  - exists []. reflexivity.
  - destruct (IH ltac:(discriminate) Hf) as [shorter Heq].
    rewrite Heq. rewrite map_app, map_map. simpl.
    eexists. rewrite <- app_assoc. simpl. reflexivity.
Qed.

(** [=(.+)] finds nothing where every [=] is the last character. *)
Lemma equals_dots_none (u : string) :
  equals_only_last u = true -> alts equals_dots u = [].
Proof.
  destruct u as [|c u]; [reflexivity |]. simpl.
  destruct (Ascii.eqb c EQUALS) eqn:Hc; [| reflexivity].
  intros Hu. apply String.eqb_eq in Hu. subst u. reflexivity.
Qed.

Lemma equals_only_last_suffix (p u : string) :
  equals_only_last (p +:+ u) = true -> equals_only_last u = true.
Proof.
  induction p as [|c p IH]; simpl; [trivial |].
  destruct (Ascii.eqb c EQUALS).
  - intros H. apply String.eqb_eq in H.
    destruct p; simpl in H; [subst u; reflexivity | discriminate].
  - apply IH.
Qed.

Lemma flat_map_map_ext_in {A B C : Type}
    (g : A -> B) (f : B -> list C) (h : A -> list C) (l : list A) :
  (forall x, In x l -> f (g x) = h x) -> flat_map f (map g l) = flat_map h l.
Proof.
  induction l as [|a l IH]; intros H; [reflexivity |].
  cbn [map flat_map]. rewrite (H a) by now left.
  rewrite IH; [reflexivity |]. intros x Hx. apply H. now right.
Qed.

Lemma alts_Seq (r1 r2 : RegExp.regex) (s : string) :
  alts (Seq r1 r2) s
  = flat_map (fun x =>
      map (fun y => Alt (matched x +:+ matched y) (captures x ++ captures y) (rest y))
          (alts r2 (rest x)))
      (alts r1 s).
Proof. reflexivity. Qed.

Lemma alts_Group (r : RegExp.regex) (s : string) :
  alts (Group r) s
  = map (fun x => Alt (matched x) (matched x :: captures x) (rest x)) (alts r s).
Proof. reflexivity. Qed.

Lemma alts_regex_unfold (s : string) :
  alts regex s
  = flat_map (fun x =>
      map (fun y => Alt (matched x +:+ matched y) (matched x :: captures y) (rest y))
          (alts equals_dots (rest x)))
      (plus_alts Dot s).
Proof.
  unfold regex. rewrite alts_Seq, alts_Group.
  change (alts (Plus Dot) s) with (plus_alts Dot s).
  apply flat_map_map_ext_in. intros x Hx. cbn [matched captures rest].
  destruct (plus_alts_In _ _ _ Hx) as (-> & _). reflexivity.
Qed.

Lemma alts_equals_dots_unfold (r : string) :
  alts equals_dots (String EQUALS r)
  = map (fun y => Alt (String EQUALS (matched y)) [matched y] (rest y))
        (plus_alts Dot r).
Proof.
  cbn [alts atom_matches]. rewrite Ascii.eqb_refl.
  cbn [flat_map rest matched captures]. rewrite app_nil_r, map_map.
  apply map_ext_in. intros y Hy. cbn [matched captures rest].
  destruct (plus_alts_In _ _ _ Hy) as (-> & _). reflexivity.
Qed.

(** The first alternative of the pattern on [f=r]: the last [=] that a
    character follows is the one the pattern splits at. *)
Lemma alts_regex_head (f r : string) :
  f <> "" -> r <> "" -> one_line f = true -> one_line r = true ->
  equals_only_last r = true ->
  exists more,
    alts regex (f +:+ "=" +:+ r)
    = Alt (f +:+ "=" +:+ r) [f; r] "" :: more.
Proof.
  intros Hf Hr Hlf Hlr Hlast.
  destruct (plus_alts_dot_app f ("=" +:+ r) Hf Hlf) as [shorter Hsplit].
  destruct (plus_alts_dot_head r Hr Hlr) as [more Hhead].
  rewrite alts_regex_unfold, Hsplit, flat_map_app, flat_map_nil.
  - cbn [flat_map app rest matched].
    change ("=" +:+ r) with (String EQUALS r).
    rewrite alts_equals_dots_unfold, Hhead.
    cbn [map app matched captures rest]. eexists. reflexivity.
  - intros x Hx. apply in_map_iff in Hx. destruct Hx as (z & <- & Hz).
    cbn [rest].
    destruct (plus_alts_In Dot _ z Hz) as (_ & Hm & Hs & _).
    assert (Hsuf : exists p, r = p +:+ rest z).
    { destruct (matched z) as [|c m]; [contradiction |].
      simpl in Hs. injection Hs as _ Hs. eauto. }
    destruct Hsuf as [p Hp].
    assert (Hu : equals_only_last (rest z) = true)
      by (apply (equals_only_last_suffix p); now rewrite <- Hp).
    now rewrite (equals_dots_none _ Hu).
Qed.

(** [exec] on [f=r], for [f] and [r] of one line and not empty, and no
    [=] in [r] but possibly its last character. *)
Lemma exec_regex_split (f r : string) :
  f <> "" -> r <> "" -> one_line f = true -> one_line r = true ->
  equals_only_last r = true ->
  exec regex (f +:+ "=" +:+ r) = Some [f +:+ "=" +:+ r; f; r].
Proof.
  intros Hf Hr Hlf Hlr Hlast.
  destruct (alts_regex_head f r Hf Hr Hlf Hlr Hlast) as [more Heq].
  destruct f as [|c f]; [contradiction |].
  simpl in Heq |- *. now rewrite Heq.
Qed.

(** Every alternative of the pattern has the shape [f=r]. *)
Lemma alts_regex_In (s : string) (z : alt) :
  In z (alts regex s) ->
  exists f r,
    matched z = f +:+ "=" +:+ r /\ captures z = [f; r]
    /\ s = matched z +:+ rest z
    /\ f <> "" /\ r <> "" /\ one_line f = true /\ one_line r = true.
Proof.
  rewrite alts_regex_unfold. intros Hz.
  apply in_flat_map in Hz. destruct Hz as (x & Hx & Hz).
  apply in_map_iff in Hz. destruct Hz as (y & <- & Hy).
  destruct (plus_alts_In _ _ _ Hx) as (_ & Hxm & Hs & Hxl).
  destruct (rest x) as [|c u] eqn:Hrest; [contradiction |].
  destruct (Ascii.eqb c EQUALS) eqn:Hc.
  - apply Ascii.eqb_eq in Hc. subst c. rewrite alts_equals_dots_unfold in Hy.
    apply in_map_iff in Hy. destruct Hy as (w & <- & Hw).
    destruct (plus_alts_In _ _ _ Hw) as (_ & Hwm & Hu & Hwl).
    exists (matched x), (matched w). cbn [matched captures rest].
    repeat split; try assumption.
    rewrite Hs, Hu. simpl. now rewrite append_assoc.
  - cbn [alts atom_matches] in Hy. rewrite Hc in Hy. contradiction.
Qed.

(** The array [exec] returns has the whole match and the two captures. *)
Lemma exec_regex_Some (s : string) (matches : list string) :
  exec regex s = Some matches ->
  exists f r pre post,
    matches = [f +:+ "=" +:+ r; f; r]
    /\ s = pre +:+ (f +:+ "=" +:+ r) +:+ post
    /\ f <> "" /\ r <> "" /\ one_line f = true /\ one_line r = true.
Proof.
  induction s as [|c s IH]; cbn [exec].
  - destruct (alts regex "") as [|z l] eqn:Hz; [discriminate |].
    intros [= <-].
    destruct (alts_regex_In "" z) as (f & r & Hm & Hc & Hs & H);
      [rewrite Hz; now left |].
    exists f, r, "", (rest z). rewrite Hm, Hc in *. split; [reflexivity |].
    split; [exact Hs | exact H].
  - destruct (alts regex (String c s)) as [|z l] eqn:Hz.
    + intros H. destruct (IH H) as (f & r & pre & post & -> & -> & H').
      exists f, r, (String c pre), post. split; [reflexivity |].
      split; [reflexivity | exact H'].
    + intros [= <-].
      destruct (alts_regex_In (String c s) z) as (f & r & Hm & Hc & Hs & H);
        [rewrite Hz; now left |].
      exists f, r, "", (rest z). rewrite Hm, Hc in *. split; [reflexivity |].
      split; [exact Hs | exact H].
Qed.

Lemma count_char_app (c : ascii) (s t : string) :
  count_char c (s +:+ t) = count_char c s + count_char c t.
Proof. induction s as [|c' s IH]; simpl; [reflexivity | rewrite IH; lia]. Qed.

(** A string with no [=] is a bad entry. *)
Lemma exec_regex_no_equals (s : string) :
  count_char EQUALS s = 0 -> exec regex s = None.
Proof.
  intros Hs. destruct (exec regex s) as [m|] eqn:He; [| reflexivity].
  destruct (exec_regex_Some s m He) as (f & r & pre & post & _ & -> & _).
  rewrite !count_char_app in Hs. simpl in Hs. lia.
Qed.

Lemma parse_Some (s : string) (e : AliasEntry) :
  parse s = Some e <->
  exec regex s = Some [find e +:+ "=" +:+ replacement e; find e; replacement e].
Proof.
  unfold parse. destruct (exec regex s) as [m|] eqn:He.
  - destruct (exec_regex_Some s m He) as (f & r & _ & _ & -> & _). simpl.
    split.
    + intros [= <-]. reflexivity.
    + intros H. injection H as _ -> ->. now destruct e.
  - split; discriminate.
Qed.

(** ** The pattern on a string of several lines *)

Lemma line_terminator_not_equals (c : ascii) :
  is_line_terminator c = true -> Ascii.eqb c EQUALS = false.
Proof.
  unfold is_line_terminator. intros H. apply orb_true_iff in H.
  destruct H as [H | H]; apply Ascii.eqb_eq in H; subst c; reflexivity.
Qed.

Lemma stops_cons (c : ascii) (u w : string) :
  is_line_terminator c = false -> stops (String c u) w -> stops u w.
Proof.
  unfold stops, one_line. cbn [all_chars]. intros ->. exact (fun H => H).
Qed.

Lemma plus_alts_dot_stops (u w : string) :
  stops u w ->
  plus_alts Dot (u +:+ w)
  = map (fun p => Alt (matched p) [] (rest p +:+ w)) (plus_alts Dot u).
Proof.
  induction u as [|c u IH]; intros Hstop.
  - destruct Hstop as [H | H]; [discriminate |].
    destruct w as [|c w]; [reflexivity |]. simpl in H |- *. now rewrite H.
  - simpl. destruct (is_line_terminator c) eqn:Hc; [reflexivity |]. cbn [negb].
    rewrite (IH (stops_cons c u w Hc Hstop)), map_app, !map_map. reflexivity.
Qed.

Lemma plus_alts_stops (u w : string) (p : alt) :
  In p (plus_alts Dot u) -> stops u w -> stops (rest p) w.
Proof.
  intros Hp [Hu | Hw]; [left | now right].
  destruct (plus_alts_In _ _ _ Hp) as (_ & _ & Hs & Hall).
  unfold one_line in *. rewrite Hs, all_chars_app in Hu.
  change (all_chars (fun c => negb (is_line_terminator c)) (matched p) = true) in Hall.
  rewrite Hall in Hu. exact Hu.
Qed.

Lemma alts_equals_dots_stops (y w : string) :
  stops y w ->
  alts equals_dots (y +:+ w)
  = map (fun q => Alt (matched q) (captures q) (rest q +:+ w)) (alts equals_dots y).
Proof.
  intros Hstop. destruct y as [|c y].
  - destruct Hstop as [H | H]; [discriminate |].
    destruct w as [|c w]; [reflexivity |]. simpl in H.
    cbn [alts atom_matches]. simpl. now rewrite (line_terminator_not_equals c H).
  - change (String c y +:+ w) with (String c (y +:+ w)).
    destruct (Ascii.eqb_spec c EQUALS) as [-> | Hc].
    + rewrite !alts_equals_dots_unfold.
      rewrite (plus_alts_dot_stops y w (stops_cons EQUALS y w eq_refl Hstop)).
      now rewrite !map_map.
    + cbn [alts atom_matches]. apply Ascii.eqb_neq in Hc. now rewrite Hc.
Qed.

(** The alternatives of the pattern on [u +:+ w] are those on [u] when
    no run of [.+] crosses from [u] into [w]. *)
Lemma alts_regex_stops (u w : string) :
  stops u w ->
  alts regex (u +:+ w)
  = map (fun z => Alt (matched z) (captures z) (rest z +:+ w)) (alts regex u).
Proof.
  intros Hstop. rewrite !alts_regex_unfold, (plus_alts_dot_stops u w Hstop).
  assert (H : forall l, (forall p, In p l -> In p (plus_alts Dot u)) ->
    flat_map (fun x =>
        map (fun y => Alt (matched x +:+ matched y) (matched x :: captures y) (rest y))
            (alts equals_dots (rest x)))
      (map (fun p => Alt (matched p) [] (rest p +:+ w)) l)
    = map (fun z => Alt (matched z) (captures z) (rest z +:+ w))
        (flat_map (fun x =>
            map (fun y => Alt (matched x +:+ matched y) (matched x :: captures y) (rest y))
                (alts equals_dots (rest x))) l)).
  { induction l as [|p l IH]; intros Hl; [reflexivity |].
    cbn [map flat_map matched rest]. rewrite map_app, IH
      by (intros q Hq; apply Hl; now right).
    f_equal.
    rewrite (alts_equals_dots_stops (rest p) w)
      by (apply (plus_alts_stops u); [apply Hl; now left | exact Hstop]).
    now rewrite !map_map. }
  apply H. auto.
Qed.

Lemma ends_with_line_break_not_one_line (c : ascii) (u : string) :
  ends_with_line_break (String c u) = true -> one_line (String c u) = false.
Proof.
  revert c. induction u as [|c' u IH]; intros c H.
  - unfold one_line. simpl in *. now rewrite H.
  - change (ends_with_line_break (String c' u) = true) in H.
    pose proof (IH c' H) as H'. unfold one_line in *. cbn [all_chars] in *.
    rewrite H'. apply andb_false_r.
Qed.

(** Lines that do not match are passed over. *)
Lemma exec_regex_skip (pre w : string) :
  ends_with_line_break pre = true -> exec regex pre = None ->
  exec regex (pre +:+ w) = exec regex w.
Proof.
  induction pre as [|c pre IH]; intros Hend Hnone; [reflexivity |].
  cbn [exec] in Hnone. destruct (alts regex (String c pre)) as [|x l] eqn:Halts;
    [| discriminate].
  change (String c pre +:+ w) with (String c (pre +:+ w)). cbn [exec].
  change (String c (pre +:+ w)) with (String c pre +:+ w).
  rewrite alts_regex_stops, Halts
    by (left; now apply ends_with_line_break_not_one_line).
  cbn [map]. apply IH; [| exact Hnone].
  destruct pre; [reflexivity | exact Hend].
Qed.

(** What follows the line that matches does not count. *)
Lemma exec_regex_line (line post : string) :
  one_line line = true -> line_break_or_end post = true ->
  is_Some (exec regex line) ->
  exec regex (line +:+ post) = exec regex line.
Proof.
  induction line as [|c line IH]; intros Hline Hpost Hsome.
  - destruct Hsome as [m Hm]. discriminate.
  - change (String c line +:+ post) with (String c (line +:+ post)). cbn [exec].
    change (String c (line +:+ post)) with (String c line +:+ post).
    rewrite alts_regex_stops by now right.
    cbn [exec] in Hsome. destruct (alts regex (String c line)) as [|x l]; cbn [map].
    + apply IH; [| exact Hpost | exact Hsome].
      unfold one_line in *. cbn [all_chars] in Hline.
      now apply andb_true_iff in Hline.
    + reflexivity.
Qed.

(** On a string of several lines the pattern reads the first line that
    matches, and that line alone. *)
Lemma exec_regex_first_line (pre line post : string) :
  ends_with_line_break pre = true -> exec regex pre = None ->
  one_line line = true -> line_break_or_end post = true ->
  is_Some (exec regex line) ->
  exec regex (pre +:+ line +:+ post) = exec regex line.
Proof.
  intros Hend Hnone Hline Hpost Hsome.
  rewrite exec_regex_skip by assumption. now apply exec_regex_line.
Qed.

Example exec_regex_two_lines :
  exec regex ("x" +:+ str1 LF +:+ "a=b=c" +:+ str1 CR +:+ "d=e")
  = Some ["a=b=c"; "a=b"; "c"].
Proof. reflexivity. Qed.

(** ** The loop of [verify] *)

Import PluginLoader.

(** What a run of [|=] leaves on an array that is not empty: the Number
    1 or 0, as the accumulator it starts from counts as 1 or [key] is
    the [find] of an entry, or not. *)
Lemma fold_bitwise_or (es : list AliasEntry) (key : string) (x : accumulator) (b : bool) :
  ToInt32 x = Z.b2z b -> es <> [] ->
  fold_left (fun accum value =>
               bitwise_or accum (Boolean (String.eqb (find value) key))) es x
  = Number (Z.b2z (b || bool_decide (key ∈ find <$> es))).
Proof.
  revert x b. induction es as [|e es IH]; intros x b Hx Hne; [contradiction |].
  cbn [fold_left]. unfold bitwise_or at 2. rewrite Hx. cbn [ToInt32].
  assert (Hor : Z.lor (Z.b2z b) (Z.b2z (String.eqb (find e) key))
                = Z.b2z (b || String.eqb (find e) key))
    by (destruct b, (String.eqb (find e) key); reflexivity).
  rewrite Hor.
  assert (Hmem : bool_decide (key ∈ find <$> e :: es)
                 = String.eqb (find e) key || bool_decide (key ∈ find <$> es)).
  { rewrite fmap_cons. destruct (String.eqb_spec (find e) key) as [Heq | Hneq].
    - cbn [orb]. apply bool_decide_eq_true_2, elem_of_cons. left. congruence.
    - cbn [orb]. apply bool_decide_ext. rewrite elem_of_cons.
      split; [intros [H | H]; [congruence | exact H] | tauto]. }
  destruct es as [|e' es'].
  - cbn [fold_left]. rewrite Hmem.
    rewrite (bool_decide_eq_false_2 (key ∈ find <$> [])) by apply not_elem_of_nil.
    now rewrite orb_false_r.
  - rewrite (IH (Number (Z.b2z (b || String.eqb (find e) key)))
               (b || String.eqb (find e) key)); [| | discriminate].
    + rewrite Hmem. now rewrite orb_assoc.
    + cbn [ToInt32]. destruct (b || String.eqb (find e) key); reflexivity.
Qed.

(** The reducer is true exactly when [key] is the [find] of an entry. *)
Lemma reduce_overrides_spec (es : list AliasEntry) (key : string) :
  ToBoolean (reduce_overrides es key) = bool_decide (key ∈ find <$> es).
Proof.
  unfold reduce_overrides. destruct es as [|e es].
  - cbn [fold_left ToBoolean]. symmetry. apply bool_decide_eq_false_2, not_elem_of_nil.
  - rewrite (fold_bitwise_or (e :: es) key (Boolean false) false) by easy.
    cbn [ToBoolean orb]. now destruct (bool_decide (key ∈ find <$> e :: es)).
Qed.

(** The callback, by what [parse] makes of the entry. *)
Lemma step_parse (st : loop_state) (entry : string) :
  step st entry =
  match parse entry with
  | Some e =>
      if bool_decide (find e ∈ find <$> entries st) then
        {| badEntries := badEntries st;
           warnEntries := warnEntries st ++ [entry];
           entries := entries st |}
      else
        {| badEntries := badEntries st;
           warnEntries := warnEntries st;
           entries := entries st ++ [e] |}
  | None =>
      {| badEntries := badEntries st ++ [entry];
         warnEntries := warnEntries st;
         entries := entries st |}
  end.
Proof.
  unfold step, parse. destruct (exec regex entry) as [m|]; [| reflexivity].
  destruct (3 <=? length m)%nat; [| reflexivity].
  cbn [find]. now rewrite reduce_overrides_spec.
Qed.

Lemma forEach_snoc (a : list string) (entry : string) :
  forEach (a ++ [entry]) = step (forEach a) entry.
Proof. unfold forEach. now rewrite fold_left_app. Qed.

Lemma keys_of_snoc (earlier : list string) (s : string) :
  keys_of (earlier ++ [s])
  = keys_of earlier ++ match parse s with Some e => [find e] | None => [] end.
Proof.
  unfold keys_of. rewrite omap_app, fmap_app. cbn.
  now destruct (parse s).
Qed.

Lemma keys_agree_step (earlier : list string) (st : loop_state) (s : string) :
  keys_agree earlier st -> keys_agree (earlier ++ [s]) (step st s).
Proof.
  intros Hinv k. rewrite step_parse, keys_of_snoc.
  destruct (parse s) as [e|].
  - case_bool_decide as Hin; cbn [entries].
    + rewrite elem_of_app, list_elem_of_singleton, (Hinv k).
      split; [tauto |]. intros [H | ->]; [assumption | now apply Hinv].
    + rewrite fmap_app, !elem_of_app, (Hinv k). reflexivity.
  - cbn [entries]. rewrite app_nil_r. apply Hinv.
Qed.

(** The three arrays after a run from [st], by the notions of the
    specification. *)
Lemma fold_step_spec (a earlier : list string) (st : loop_state) :
  keys_agree earlier st ->
  badEntries (fold_left step a st) = badEntries st ++ bad_entries a
  /\ warnEntries (fold_left step a st) = warnEntries st ++ duplicates_after earlier a
  /\ entries (fold_left step a st) = entries st ++ accepted_after earlier a.
Proof.
  revert earlier st. induction a as [|s a IH]; intros earlier st Hinv.
  - cbn. now rewrite !app_nil_r.
  - cbn [fold_left].
    destruct (IH (earlier ++ [s]) (step st s) (keys_agree_step _ _ s Hinv))
      as (Hb & Hw & He).
    rewrite Hb, Hw, He. clear IH Hb Hw He.
    rewrite step_parse. unfold bad_entries.
    cbn [List.filter duplicates_after accepted_after].
    destruct (parse s) as [e|].
    + assert (Hiff : find e ∈ find <$> entries st <-> find e ∈ keys_of earlier)
        by apply Hinv.
      case_bool_decide as H1; case_bool_decide as H2; try tauto;
        cbn [badEntries warnEntries entries];
        rewrite <- ?app_assoc; auto.
    + cbn [badEntries warnEntries entries]. rewrite <- ?app_assoc; auto.
Qed.

Lemma keys_agree_initial : keys_agree [] initial.
Proof. intros k. reflexivity. Qed.

(** The run of [forEach], by the notions of the specification. *)
Lemma forEach_spec (a : list string) :
  badEntries (forEach a) = bad_entries a
  /\ warnEntries (forEach a) = duplicate_entries a
  /\ entries (forEach a) = accepted_entries a.
Proof. exact (fold_step_spec a [] initial keys_agree_initial). Qed.

(** The arrays only grow. *)
Lemma fold_step_grows (a : list string) (st : loop_state) :
  exists b w e,
    badEntries (fold_left step a st) = badEntries st ++ b
    /\ warnEntries (fold_left step a st) = warnEntries st ++ w
    /\ entries (fold_left step a st) = entries st ++ e.
Proof.
  revert st. induction a as [|s a IH]; intros st.
  - exists [], [], []. cbn. now rewrite !app_nil_r.
  - cbn [fold_left]. destruct (IH (step st s)) as (b & w & e & -> & -> & ->).
    rewrite step_parse. destruct (parse s) as [x|]; [case_bool_decide |];
      cbn [badEntries warnEntries entries]; rewrite <- ?app_assoc;
      do 3 eexists; repeat split; reflexivity.
Qed.

(** The [find] keys of the accepted entries stay pairwise distinct. *)
Lemma step_NoDup (st : loop_state) (s : string) :
  NoDup (find <$> entries st) -> NoDup (find <$> entries (step st s)).
Proof.
  intros Hnd. rewrite step_parse.
  destruct (parse s) as [e|]; [case_bool_decide as Hin |]; cbn [entries]; try assumption.
  rewrite fmap_app. apply NoDup_app. split; [assumption |]. split.
  - intros k Hk Hk'. apply list_elem_of_singleton in Hk'. now subst k.
  - apply NoDup_singleton.
Qed.

Lemma fold_step_NoDup (a : list string) (st : loop_state) :
  NoDup (find <$> entries st) -> NoDup (find <$> entries (fold_left step a st)).
Proof.
  revert st. induction a as [|s a IH]; intros st Hnd; [assumption |].
  cbn [fold_left]. apply IH. now apply step_NoDup.
Qed.

Lemma forEach_NoDup (a : list string) : NoDup (find <$> entries (forEach a)).
Proof. apply fold_step_NoDup. cbn. constructor. Qed.

(** ** [verify] on an array of strings *)

(** On strings the callback on values is the callback on strings: ToString
    is the identity and does not throw. *)
Lemma Values_step_string (st : loop_state) (s : string) :
  Values.step (as_values st) (VStr s) = Return (as_values (step st s)).
Proof.
  unfold Values.step, step. cbn [ToString]. f_equal.
  destruct (exec regex s) as [m|].
  - destruct (3 <=? length m)%nat.
    + cbn [as_values Values.entries].
      destruct (ToBoolean (reduce_overrides (entries st) (nth 1 m ""))).
      * unfold as_values. cbn. now rewrite fmap_app.
      * reflexivity.
    + unfold as_values. cbn. now rewrite fmap_app.
  - unfold as_values. cbn. now rewrite fmap_app.
Qed.

Lemma Values_forEach_from_strings (a : list string) (st : loop_state) :
  Values.forEach_from (as_values st) (VStr <$> a)
  = Return (as_values (fold_left step a st)).
Proof.
  revert st. induction a as [|s a IH]; intros st; [reflexivity |].
  rewrite fmap_cons. cbn [Values.forEach_from fold_left].
  rewrite Values_step_string. apply IH.
Qed.

Lemma Values_forEach_strings (a : list string) :
  Values.forEach (VStr <$> a) = Return (as_values (forEach a)).
Proof. apply (Values_forEach_from_strings a initial). Qed.

(** [JSON.stringify] of an Array whose elements are strings, whatever
    the order of the properties of objects. *)
Lemma SerializeJSONArray_strings (keys : key_order) (a : list string) :
  SerializeJSONArray keys (VStr <$> a) = JSON.stringify a.
Proof.
  unfold SerializeJSONArray, JSON.stringify.
  do 2 f_equal. rewrite <- list_fmap_compose.
  induction a as [|s a IH]; [reflexivity |]. cbn. now rewrite IH.
Qed.

Lemma Values_errorMessage_strings (keys : key_order) (st : loop_state) :
  Values.errorMessage keys (VStr <$> badEntries st) (VStr <$> warnEntries st)
  = errorMessage st.
Proof.
  unfold Values.errorMessage, errorMessage.
  now rewrite !SerializeJSONArray_strings, !length_fmap.
Qed.

(** The message the code builds is the one the specification describes. *)
Lemma errorMessage_spec (st : loop_state) :
  errorMessage st = failure_message (badEntries st) (warnEntries st).
Proof.
  unfold errorMessage, failure_message.
  destruct (badEntries st) as [|b bs], (warnEntries st) as [|w ws]; cbn [length Nat.ltb Nat.leb];
    rewrite ?append_assoc, ?append_nil_r; reflexivity.
Qed.

(** The test [errorMessage !== 'plugin-alias verification failure:\n']. *)
Lemma errorMessage_header (st : loop_state) :
  String.eqb (errorMessage st) failure_header = true
  <-> badEntries st = [] /\ warnEntries st = [].
Proof.
  rewrite String.eqb_eq, errorMessage_spec. unfold failure_message.
  destruct (badEntries st) as [|b bs], (warnEntries st) as [|w ws].
  - rewrite !append_nil_r. tauto.
  - split; [| intros [_ [=]]]. intros H. apply append_eq_l in H. discriminate.
  - split; [| intros [[=] _]]. intros H. apply append_eq_l in H. discriminate.
  - split; [| intros [[=] _]]. intros H. apply append_eq_l in H. discriminate.
Qed.

Lemma verify_strings (keys : key_order) (flags : gmap string value) (a : list string) :
  field flags "alias" = VArr (VStr <$> a) ->
  verify keys flags
  = (<["alias" := alias_options (entries (forEach a))]> flags,
     completion_of (forEach a)).
Proof.
  intros Halias. unfold verify. rewrite Halias, Values_forEach_strings.
  cbn [as_values Values.badEntries Values.warnEntries Values.entries].
  rewrite Values_errorMessage_strings.
  unfold completion_of.
  destruct (String.eqb (errorMessage (forEach a)) failure_header) eqn:Hmsg; cbn [negb].
  - apply errorMessage_header in Hmsg. destruct Hmsg as [-> ->]. reflexivity.
  - destruct (badEntries (forEach a)) as [|b bs] eqn:Hb;
      [destruct (warnEntries (forEach a)) as [|w ws] eqn:Hw |]; try reflexivity.
    assert (H : String.eqb (errorMessage (forEach a)) failure_header = true)
      by (apply errorMessage_header; tauto).
    congruence.
Qed.

Lemma verify_not_array (keys : key_order) (flags : gmap string value) :
  Array_isArray (field flags "alias") = false ->
  verify keys flags = (flags, Return tt).
Proof.
  unfold verify. now destruct (field flags "alias").
Qed.

Lemma completion_of_Return (st : loop_state) :
  completion_of st = Return tt <-> badEntries st = [] /\ warnEntries st = [].
Proof.
  unfold completion_of.
  destruct (badEntries st), (warnEntries st); split; try tauto; try discriminate;
    intros [? ?]; discriminate.
Qed.

Lemma completion_of_Throw (st : loop_state) (e : exn) :
  completion_of st = Throw e ->
  e = NonFatalError (failure_message (badEntries st) (warnEntries st))
  /\ (badEntries st <> [] \/ warnEntries st <> []).
Proof.
  unfold completion_of. rewrite <- errorMessage_spec.
  destruct (badEntries st), (warnEntries st); intros [= <-]; split;
    try reflexivity; (left; discriminate) || (right; discriminate).
Qed.

(** The entries of a run depend on the accepted entries it starts from,
    not on the other two arrays. *)
Lemma fold_step_entries_ext (a : list string) (st st' : loop_state) :
  entries st = entries st' ->
  entries (fold_left step a st) = entries (fold_left step a st').
Proof.
  revert st st'. induction a as [|s a IH]; intros st st' Heq; [assumption |].
  cbn [fold_left]. apply IH. rewrite !step_parse.
  destruct (parse s) as [e|]; [| assumption].
  rewrite Heq. case_bool_decide; cbn [entries]; now rewrite ?Heq.
Qed.

Lemma NoDup_fmap_inj_on {A B : Type} (f : A -> B) (l : list A) (x y : A) :
  NoDup (f <$> l) -> x ∈ l -> y ∈ l -> f x = f y -> x = y.
Proof.
  induction l as [|a l IH]; intros Hnd Hx Hy Hxy.
  - now apply elem_of_nil in Hx.
  - rewrite fmap_cons in Hnd. apply NoDup_cons in Hnd. destruct Hnd as [Ha Hnd].
    apply elem_of_cons in Hx. apply elem_of_cons in Hy.
    destruct Hx as [-> | Hx], Hy as [-> | Hy]; [reflexivity | | | now apply IH].
    + exfalso. apply Ha. rewrite Hxy. now apply list_elem_of_fmap_2.
    + exfalso. apply Ha. rewrite <- Hxy. now apply list_elem_of_fmap_2.
Qed.

(** A run of well-formed entries with distinct [find] keys, none of them
    read before, accepts every entry and records no duplicate. *)
Lemma accepted_after_all (earlier a : list string) (es : list AliasEntry) :
  Forall2 (fun s e => parse s = Some e) a es ->
  NoDup (find <$> es) ->
  (forall k, k ∈ find <$> es -> k ∉ keys_of earlier) ->
  accepted_after earlier a = es
  /\ duplicates_after earlier a = []
  /\ bad_entries a = [].
Proof.
  intros Hall. revert earlier.
  induction Hall as [|s e a es Hs Hall IH]; intros earlier Hnd Hfresh.
  - repeat split.
  - rewrite fmap_cons in Hnd. apply NoDup_cons in Hnd. destruct Hnd as [He Hnd].
    unfold bad_entries. cbn [accepted_after duplicates_after List.filter].
    rewrite Hs. rewrite bool_decide_eq_false_2
      by (apply Hfresh; rewrite fmap_cons; apply elem_of_cons; now left).
    destruct (IH (earlier ++ [s]) Hnd) as (-> & -> & Hb).
    + intros k Hk. rewrite keys_of_snoc, Hs, elem_of_app, list_elem_of_singleton.
      intros [Hin | ->]; [| contradiction].
      revert Hin. apply Hfresh. rewrite fmap_cons. apply elem_of_cons. now right.
    + repeat split. exact Hb.
Qed.

(** ** [verify] on an array of any values *)

(** ToString throws nothing but a TypeError. *)
Lemma ToString_throws (v : value) (e : exn) :
  ToString v = Throw e -> e = TypeError.
Proof.
  revert v e. fix ToString_throws 1. intros v e.
  destruct v as [| | b | n | s | elems | props]; cbn [ToString]; try discriminate.
  - assert (H : forall e',
      traverse (fun element =>
                  match element with
                  | VUndefined | VNull => Return ""
                  | _ => ToString element
                  end) elems = Throw e' -> e' = TypeError).
    { induction elems as [|x elems IH]; intros e'; cbn [traverse]; [discriminate |].
      pose proof (ToString_throws x) as Hx.
      destruct x as [| | b | n | s | xs | ps];
        try (destruct (traverse _ elems) as [ys|e1] eqn:Ht;
             [discriminate | intros [= <-]; now apply IH]).
      - destruct (ToString (VArr xs)) as [y|e1] eqn:Hy.
        + destruct (traverse _ elems) as [ys|e2] eqn:Ht;
            [discriminate | intros [= <-]; now apply IH].
        + intros [= <-]. now apply Hx.
      - destruct (ToString (VObj ps)) as [y|e1] eqn:Hy.
        + destruct (traverse _ elems) as [ys|e2] eqn:Ht;
            [discriminate | intros [= <-]; now apply IH].
        + intros [= <-]. now apply Hx. }
    destruct (traverse _ elems) as [ys|e1] eqn:Ht; [discriminate |].
    intros [= <-]. now apply H.
  - destruct (props !! "toString"); [| discriminate]. now intros [= <-].
Qed.

Lemma Values_forEach_from_throws (a : list value) (st : Values.loop_state) (e : exn) :
  Values.forEach_from st a = Throw e -> e = TypeError.
Proof.
  revert st. induction a as [|v a IH]; intros st; cbn [Values.forEach_from];
    [discriminate |].
  unfold Values.step. destruct (ToString v) as [text|e1] eqn:Hv.
  - apply IH.
  - intros [= <-]. exact (ToString_throws v e1 Hv).
Qed.

Lemma InitHook_Values_forEach_from_throws
    (a : list value) (st : InitHook.Values.loop_state) (e : exn) :
  InitHook.Values.forEach_from st a = Throw e -> e = TypeError.
Proof.
  revert st. induction a as [|v a IH]; intros st; cbn [InitHook.Values.forEach_from];
    [discriminate |].
  unfold InitHook.Values.step. destruct (ToString v) as [text|e1] eqn:Hv.
  - apply IH.
  - intros [= <-]. exact (ToString_throws v e1 Hv).
Qed.

(** The test [errorMessage !== 'plugin-alias verification failure:\n']
    on the message of any two arrays. *)
Lemma Values_errorMessage_header (keys : key_order) (bad warn : list value) :
  String.eqb (Values.errorMessage keys bad warn) failure_header = true
  <-> bad = [] /\ warn = [].
Proof.
  rewrite String.eqb_eq. unfold Values.errorMessage.
  destruct bad as [|b bs], warn as [|w ws]; cbn [length Nat.ltb Nat.leb].
  - tauto.
  - split; [| intros [_ [=]]]. intros H. apply append_eq_l in H. discriminate.
  - split; [| intros [[=] _]]. intros H. apply append_eq_l in H. discriminate.
  - split; [| intros [[=] _]]. rewrite append_assoc. intros H.
    apply append_eq_l in H. discriminate.
Qed.

(** ** The older hook on an array of strings *)

(** The loop of the older hook keeps every entry that matches, a repeated
    [find] included, and throws on bad entries alone. *)
Lemma InitHook_forEach_spec (a : list string) :
  InitHook.badEntries (InitHook.forEach a) = bad_entries a
  /\ InitHook.entries (InitHook.forEach a) = omap parse a.
Proof.
  unfold InitHook.forEach.
  assert (H : forall st,
    InitHook.badEntries (fold_left InitHook.step a st)
    = InitHook.badEntries st ++ bad_entries a
    /\ InitHook.entries (fold_left InitHook.step a st)
       = InitHook.entries st ++ omap parse a).
  { induction a as [|s a IH]; intros st.
    - cbn. now rewrite !app_nil_r.
    - cbn [fold_left]. destruct (IH (InitHook.step st s)) as [-> ->].
      unfold InitHook.step, bad_entries, parse. cbn [List.filter omap list_omap].
      fold (bad_entries a). unfold parse.
      destruct (exec regex s) as [m|]; [destruct (3 <=? length m)%nat |];
        cbn [InitHook.badEntries InitHook.entries];
        rewrite <- ?app_assoc; split; reflexivity. }
  apply (H InitHook.initial).
Qed.

Lemma InitHook_Values_step_string (st : InitHook.loop_state) (s : string) :
  InitHook.Values.step (InitHook_as_values st) (VStr s)
  = Return (InitHook_as_values (InitHook.step st s)).
Proof.
  unfold InitHook.Values.step, InitHook.step. cbn [ToString]. f_equal.
  destruct (exec regex s) as [m|]; [destruct (3 <=? length m)%nat |];
    unfold InitHook_as_values; cbn; now rewrite ?fmap_app.
Qed.

Lemma InitHook_Values_forEach_from_strings (a : list string) (st : InitHook.loop_state) :
  InitHook.Values.forEach_from (InitHook_as_values st) (VStr <$> a)
  = Return (InitHook_as_values (fold_left InitHook.step a st)).
Proof.
  revert st. induction a as [|s a IH]; intros st; [reflexivity |].
  rewrite fmap_cons. cbn [InitHook.Values.forEach_from fold_left].
  rewrite InitHook_Values_step_string. apply IH.
Qed.

Lemma InitHook_Values_forEach_strings (a : list string) :
  InitHook.Values.forEach (VStr <$> a)
  = Return (InitHook_as_values (InitHook.forEach a)).
Proof. apply (InitHook_Values_forEach_from_strings a InitHook.initial). Qed.

(** [verify] of the older hook on an array of strings: it throws exactly
    on a bad entry, and a repeated [find] is no error. *)
Lemma InitHook_verify_strings (keys : key_order) (flags : gmap string value)
    (a : list string) :
  field flags "alias" = VArr (VStr <$> a) ->
  InitHook.verify keys flags
  = (<["alias" := VArr (map entry_value (omap parse a))]> flags,
     match bad_entries a with
     | [] => Return tt
     | _ :: _ =>
         Throw (Error ("plugin-alias verify; can not parse "
                       +:+ JSON.stringify (bad_entries a)
                       +:+ " each entry must be in the format of <xxx>=<yyy>.")
                      (Some false))
     end).
Proof.
  intros Halias. unfold InitHook.verify.
  rewrite Halias, InitHook_Values_forEach_strings.
  unfold InitHook.Values.errorMessage.
  cbn [InitHook_as_values InitHook.Values.badEntries InitHook.Values.entries].
  rewrite SerializeJSONArray_strings, length_fmap.
  destruct (InitHook_forEach_spec a) as [-> ->].
  destruct (bad_entries a); reflexivity.
Qed.

(** ** C1: where the pattern splits *)

(** C1, counterexample.  The string [a=b=c] matches the pattern and has
    two [=]; the split at the first [=] would give find [a] and
    replacement [b=c], but the pattern, whose first group is greedy,
    gives find [a=b] and replacement [c], in both copies of [verify]. *)
Lemma first_equals_split_fails :
  exec regex "a=b=c" = Some ["a=b=c"; "a=b"; "c"]
  /\ count_char EQUALS "a=b=c" = 2
  /\ before_first EQUALS "a=b=c" = "a"
  /\ after_first EQUALS "a=b=c" = "b=c"
  /\ verify keys_as_listed (flags_with ["a=b=c"])
     = (<["alias" := alias_options [{| find := "a=b"; replacement := "c" |}]]>
          (flags_with ["a=b=c"]), Return tt)
  /\ InitHook.verify keys_as_listed (flags_with ["a=b=c"])
     = (<["alias" := VArr [entry_value {| find := "a=b"; replacement := "c" |}]]>
          (flags_with ["a=b=c"]), Return tt)
  /\ entries (forEach ["a=b=c"])
     <> [{| find := before_first EQUALS "a=b=c";
            replacement := after_first EQUALS "a=b=c" |}]
  /\ InitHook.entries (InitHook.forEach ["a=b=c"])
     <> [{| find := before_first EQUALS "a=b=c";
            replacement := after_first EQUALS "a=b=c" |}].
Proof. repeat split; try reflexivity; intros [=]. Qed.

Lemma equals_only_last_false (b : string) :
  equals_only_last b = false ->
  exists b1 b2, b = b1 +:+ "=" +:+ b2 /\ b2 <> "".
Proof.
  induction b as [|c b IH]; cbn [equals_only_last]; [discriminate |].
  destruct (Ascii.eqb_spec c EQUALS) as [-> | Hc].
  - intros Hb. apply String.eqb_neq in Hb. exists "", b. now split.
  - intros Hb. destruct (IH Hb) as (b1 & b2 & -> & Hb2).
    exists (String c b1), b2. now split.
Qed.

Lemma length_append (s t : string) :
  String.length (s +:+ t) = String.length s + String.length t.
Proof. induction s as [|c s IH]; simpl; [reflexivity | now rewrite IH]. Qed.

(** A string with an [=] between two characters has a last such [=]. *)
Lemma last_split (n : nat) (a b : string) :
  String.length b <= n -> a <> "" -> b <> "" ->
  exists f r,
    a +:+ "=" +:+ b = f +:+ "=" +:+ r
    /\ f <> "" /\ r <> "" /\ equals_only_last r = true.
Proof.
  revert a b. induction n as [|n IH]; intros a b Hlen Ha Hb.
  - destruct b; [contradiction | simpl in Hlen; lia].
  - destruct (equals_only_last b) eqn:Hlast; [now exists a, b |].
    destruct (equals_only_last_false b Hlast) as (b1 & b2 & -> & Hb2).
    destruct (IH (a +:+ "=" +:+ b1) b2) as (f & r & Heq & H).
    + rewrite !length_append in Hlen. simpl in Hlen. lia.
    + now apply append_nonempty.
    + exact Hb2.
    + exists f, r. split; [| exact H]. rewrite <- Heq.
      now rewrite !append_assoc.
Qed.

(** What a string of one line parses to, and when. *)
Lemma parse_one_line (s f r : string) :
  one_line s = true ->
  parse s = Some {| find := f; replacement := r |}
  <-> s = f +:+ "=" +:+ r /\ f <> "" /\ r <> "" /\ equals_only_last r = true.
Proof.
  intros Hline. split.
  - intros Hp. apply parse_Some in Hp. cbn [find replacement] in Hp.
    destruct (exec_regex_Some s _ Hp) as (f' & r' & pre & post & [= _ <- <-] & Hs & Hf & Hr & _).
    destruct (last_split (String.length (r +:+ post)) (pre +:+ f) (r +:+ post))
      as (f0 & r0 & Heq & Hf0 & Hr0 & Hlast);
      [lia | now apply append_nonempty | destruct r; [contradiction | discriminate] |].
    assert (Hs0 : s = f0 +:+ "=" +:+ r0).
    { rewrite Hs, <- Heq. now rewrite !append_assoc. }
    assert (Hl0 : one_line f0 = true /\ one_line r0 = true).
    { unfold one_line in *. rewrite Hs0 in Hline.
      rewrite !all_chars_app in Hline. apply andb_true_iff in Hline.
      destruct Hline as [H1 H2]. apply andb_true_iff in H2. tauto. }
    pose proof (exec_regex_split f0 r0 Hf0 Hr0 (proj1 Hl0) (proj2 Hl0) Hlast) as He.
    rewrite <- Hs0, Hp in He. injection He as _ -> ->. now repeat split.
  - intros (-> & Hf & Hr & Hlast). apply parse_Some. cbn [find replacement].
    unfold one_line in Hline. rewrite !all_chars_app in Hline.
    apply andb_true_iff in Hline. destruct Hline as [H1 H2].
    apply andb_true_iff in H2. destruct H2 as [_ H2].
    now apply exec_regex_split.
Qed.

Lemma forEach_singleton (s : string) :
  entries (forEach [s]) = match parse s with Some e => [e] | None => [] end.
Proof.
  unfold forEach. cbn [fold_left]. rewrite step_parse.
  now destruct (parse s).
Qed.

Lemma InitHook_forEach_singleton (s : string) :
  InitHook.entries (InitHook.forEach [s])
  = match parse s with Some e => [e] | None => [] end.
Proof.
  unfold InitHook.forEach, InitHook.step, parse. cbn [fold_left].
  destruct (exec regex s) as [m|]; [| reflexivity].
  now destruct (3 <=? length m)%nat.
Qed.

(** C1, amended.  On a string [s] without line terminators, both copies
    of [verify] accept the entry [{ find: f, replacement: r }] exactly
    when [s] is [f=r] with [f] and [r] not empty and with no [=] in [r]
    except possibly its last character: the pattern splits at the last
    [=] that a character follows, so [find] takes every earlier [=] and
    [replacement] takes none. *)
Theorem verify_splits_at_last_equals (s f r : string) :
  one_line s = true ->
  (entries (forEach [s]) = [{| find := f; replacement := r |}]
   <-> s = f +:+ "=" +:+ r /\ f <> "" /\ r <> "" /\ equals_only_last r = true)
  /\ (InitHook.entries (InitHook.forEach [s]) = [{| find := f; replacement := r |}]
      <-> s = f +:+ "=" +:+ r /\ f <> "" /\ r <> "" /\ equals_only_last r = true).
Proof.
  intros Hline. rewrite forEach_singleton, InitHook_forEach_singleton.
  rewrite <- (parse_one_line s f r Hline).
  assert (H : match parse s with Some e => [e] | None => [] end
              = [{| find := f; replacement := r |}]
              <-> parse s = Some {| find := f; replacement := r |}).
  { destruct (parse s) as [e|]; split; intros [=]; subst; reflexivity. }
  now split.
Qed.

Lemma verify_splits_at_last_equals_witness :
  (entries (forEach ["a=b=c"]) = [{| find := "a=b"; replacement := "c" |}]
   <-> "a=b=c" = "a=b" +:+ "=" +:+ "c" /\ "a=b" <> "" /\ "c" <> ""
       /\ equals_only_last "c" = true)
  /\ (InitHook.entries (InitHook.forEach ["a=b=c"])
      = [{| find := "a=b"; replacement := "c" |}]
      <-> "a=b=c" = "a=b" +:+ "=" +:+ "c" /\ "a=b" <> "" /\ "c" <> ""
          /\ equals_only_last "c" = true).
Proof.
  apply (verify_splits_at_last_equals "a=b=c" "a=b" "c"). reflexivity.
Defined.

(** X16.  A string of one line is a bad entry, for both copies of
    [verify], exactly when it has no [=] between two characters. *)
Lemma parse_one_line_None (s : string) :
  one_line s = true ->
  parse s = None <-> ~ exists a b, s = a +:+ "=" +:+ b /\ a <> "" /\ b <> "".
Proof.
  intros Hline. split.
  - intros Hnone (a & b & -> & Ha & Hb).
    destruct (last_split (String.length b) a b) as (f & r & Heq & Hf & Hr & Hlast);
      [lia | assumption.. |].
    assert (Hp : parse (a +:+ "=" +:+ b) = Some {| find := f; replacement := r |})
      by (apply (parse_one_line _ f r Hline); now repeat split).
    congruence.
  - intros Hno. destruct (parse s) as [[f r]|] eqn:Hp; [| reflexivity].
    exfalso. apply Hno. apply (parse_one_line s f r Hline) in Hp.
    destruct Hp as (-> & Hf & Hr & _). now exists f, r.
Qed.

(** ** What a string of several lines parses to *)

Lemma parse_None (s : string) : parse s = None <-> exec regex s = None.
Proof.
  unfold parse. destruct (exec regex s) as [m|] eqn:He; [| tauto].
  destruct (exec_regex_Some s m He) as (f & r & _ & _ & -> & _).
  split; discriminate.
Qed.

(** On one line, a match somewhere is a match from the start. *)
Lemma exec_one_line_alts (line : string) (m : list string) :
  one_line line = true -> exec regex line = Some m ->
  exists x l, alts regex line = x :: l /\ m = matched x :: captures x.
Proof.
  intros Hline He.
  destruct (exec_regex_Some line m He) as (f & r & _ & _ & -> & _).
  assert (Hp : parse line = Some {| find := f; replacement := r |})
    by now apply parse_Some.
  apply (parse_one_line line f r Hline) in Hp.
  destruct Hp as (-> & Hf & Hr & Hlast).
  unfold one_line in Hline. rewrite !all_chars_app in Hline.
  apply andb_true_iff in Hline. destruct Hline as [H1 H2].
  apply andb_true_iff in H2. destruct H2 as [_ H2].
  destruct (alts_regex_head f r Hf Hr H1 H2 Hlast) as [more ->].
  eexists _, _. split; reflexivity.
Qed.

(** A character that [.] matches, put before a string that matches from
    its start, gives a string that matches from its start. *)
Lemma alts_regex_cons_dot (c : ascii) (t : string) :
  is_line_terminator c = false -> alts regex t <> [] -> alts regex (String c t) <> [].
Proof.
  intros Hc Ht. destruct (alts regex t) as [|x l] eqn:Halts; [contradiction |].
  assert (Hx : In x (alts regex t)) by (rewrite Halts; now left).
  rewrite alts_regex_unfold in Hx. apply in_flat_map in Hx.
  destruct Hx as (p & Hp & Hx). apply in_map_iff in Hx. destruct Hx as (y & _ & Hy).
  assert (Hin : In (Alt (String c (matched p) +:+ matched y)
                        (String c (matched p) :: captures y) (rest y))
                   (alts regex (String c t))).
  { rewrite alts_regex_unfold. apply in_flat_map.
    exists (Alt (String c (matched p)) [] (rest p)). split.
    - cbn [plus_alts atom_matches]. rewrite Hc. cbn [negb].
      apply in_or_app. left.
      apply (in_map (fun x => Alt (String c (matched x)) [] (rest x))). exact Hp.
    - cbn [matched rest].
      apply (in_map (fun y => Alt (String c (matched p) +:+ matched y)
                                  (String c (matched p) :: captures y) (rest y))).
      exact Hy. }
  intros Hnil. rewrite Hnil in Hin. contradiction.
Qed.

(** Every string is a line followed by nothing or by a line terminator. *)
Lemma split_line (s : string) :
  exists line post,
    s = line +:+ post /\ one_line line = true /\ line_break_or_end post = true.
Proof.
  induction s as [|c s (line & post & -> & Hline & Hpost)].
  - now exists "", "".
  - destruct (is_line_terminator c) eqn:Hc.
    + exists "", (String c (line +:+ post)). now repeat split.
    + exists (String c line), post. repeat split; [| exact Hpost].
      unfold one_line in *. cbn [all_chars]. now rewrite Hc.
Qed.

(** The match [exec] finds lies in one line, after lines that do not
    match. *)
Lemma exec_regex_decompose (s : string) (m : list string) :
  exec regex s = Some m ->
  exists pre line post,
    s = pre +:+ line +:+ post
    /\ ends_with_line_break pre = true /\ exec regex pre = None
    /\ one_line line = true /\ line_break_or_end post = true
    /\ exec regex line = Some m.
Proof.
  induction s as [|c t IH]; intros He; [discriminate |].
  cbn [exec] in He. destruct (alts regex (String c t)) as [|x l] eqn:Halts.
  - destruct (IH He) as (pre & line & post & -> & Hend & Hnone & Hline & Hpost & Hm).
    exists (String c pre), line, post. split; [reflexivity |].
    assert (Hend' : ends_with_line_break (String c pre) = true).
    { destruct pre as [|c' pre']; [| exact Hend].
      cbn [ends_with_line_break]. destruct (is_line_terminator c) eqn:Hc; [reflexivity |].
      exfalso. apply (alts_regex_cons_dot c (line +:+ post) Hc); [| exact Halts].
      destruct (exec_one_line_alts line m Hline Hm) as (y & l' & Hy & _).
      rewrite alts_regex_stops, Hy by now right. discriminate. }
    split; [exact Hend' |]. split; [| now repeat split].
    cbn [exec].
    change (String c (pre +:+ line +:+ post))
      with (String c pre +:+ (line +:+ post)) in Halts.
    rewrite alts_regex_stops in Halts
      by (left; now apply ends_with_line_break_not_one_line).
    apply map_eq_nil in Halts. now rewrite Halts.
  - injection He as <-.
    destruct (split_line (String c t)) as (line & post & Hs & Hline & Hpost).
    exists "", line, post. split; [exact Hs |]. repeat split; try assumption.
    rewrite Hs, alts_regex_stops in Halts by now right.
    destruct (alts regex line) as [|y l'] eqn:Hy; [discriminate |].
    injection Halts as <- _.
    destruct line as [|c' line']; cbn [exec]; rewrite Hy; reflexivity.
Qed.

(** X17.  What every string parses to, line terminators or not: the
    entry comes from the first line that holds an [=] between two
    characters, split at its last such [=]; the lines before it do not
    match, and what follows the line does not count. *)
Lemma parse_any_string (s f r : string) :
  parse s = Some {| find := f; replacement := r |}
  <-> exists pre post,
        s = pre +:+ (f +:+ "=" +:+ r) +:+ post
        /\ ends_with_line_break pre = true /\ parse pre = None
        /\ line_break_or_end post = true
        /\ one_line (f +:+ "=" +:+ r) = true
        /\ f <> "" /\ r <> "" /\ equals_only_last r = true.
Proof.
  split.
  - intros Hp. apply parse_Some in Hp. cbn [find replacement] in Hp.
    destruct (exec_regex_decompose s _ Hp)
      as (pre & line & post & -> & Hend & Hnone & Hline & Hpost & Hm).
    assert (Hl : parse line = Some {| find := f; replacement := r |})
      by now apply parse_Some.
    apply (parse_one_line line f r Hline) in Hl. destruct Hl as (-> & Hf & Hr & Hlast).
    exists pre, post. split; [reflexivity |]. split; [exact Hend |].
    split; [now apply parse_None |]. now repeat split.
  - intros (pre & post & -> & Hend & Hnone & Hpost & Hline & Hf & Hr & Hlast).
    assert (Hl : parse (f +:+ "=" +:+ r) = Some {| find := f; replacement := r |})
      by (apply (parse_one_line _ f r Hline); now repeat split).
    apply parse_Some in Hl. apply parse_Some. cbn [find replacement] in *.
    rewrite exec_regex_first_line; try assumption; [now apply parse_None | eauto].
Qed.

(** ** C2: a repeated [find] *)

(** C2, counterexample.  The older init.js has no test for a repeated
    [find]: on [a=1, a=2] it accepts both entries, not [a=1] alone,
    records [a=2] nowhere and returns. *)
Lemma init_js_appends_repeated_find :
  InitHook.verify keys_as_listed (flags_with ["a=1"; "a=2"])
  = (<["alias" := VArr [entry_value {| find := "a"; replacement := "1" |};
                        entry_value {| find := "a"; replacement := "2" |}]]>
       (flags_with ["a=1"; "a=2"]), Return tt)
  /\ InitHook.entries (InitHook.forEach ["a=1"; "a=2"])
     = [{| find := "a"; replacement := "1" |}; {| find := "a"; replacement := "2" |}]
  /\ InitHook.entries (InitHook.forEach ["a=1"; "a=2"])
     <> [{| find := "a"; replacement := "1" |}]
  /\ InitHook.badEntries (InitHook.forEach ["a=1"; "a=2"]) = [].
Proof. repeat split; try reflexivity; intros [=]. Qed.

(** C2, as amended.  In PluginLoader.js, when an entry [s] matches and
    its [find] is the [find] of an entry accepted from the input [pre]
    before it, the run of [pre ++ s :: post] accepts what the run of
    [pre ++ post] accepts: [s] adds nothing, the entry [e0] accepted
    first stays the only one of its [find], and the string [s] itself is
    pushed to the duplicates, next after those of [pre]; [verify] then
    throws.  The older init.js appends the entry of [s] all the same and
    records [s] nowhere. *)
Theorem duplicate_find_not_accepted
    (keys : key_order) (flags : gmap string value) (pre post : list string)
    (s : string) (e : AliasEntry) :
  field flags "alias" = VArr (VStr <$> pre ++ s :: post) ->
  parse s = Some e ->
  find e ∈ find <$> entries (forEach pre) ->
  let st := forEach (pre ++ s :: post) in
  (exists e0 w,
     e0 ∈ entries (forEach pre) /\ find e0 = find e
     /\ entries st = entries (forEach (pre ++ post))
     /\ e0 ∈ entries st
     /\ (forall e1, e1 ∈ entries st -> find e1 = find e -> e1 = e0)
     /\ warnEntries st = warnEntries (forEach pre) ++ s :: w
     /\ verify keys flags
        = (<["alias" := alias_options (entries st)]> flags,
           Throw (NonFatalError
                    (failure_message (badEntries st) (warnEntries st)))))
  /\ InitHook.entries (InitHook.forEach (pre ++ s :: post))
     = InitHook.entries (InitHook.forEach pre)
       ++ e :: InitHook.entries (InitHook.forEach post)
  /\ InitHook.badEntries (InitHook.forEach (pre ++ s :: post))
     = InitHook.badEntries (InitHook.forEach pre)
       ++ InitHook.badEntries (InitHook.forEach post).
Proof.
  intros Halias Hparse Hin st. split.
  - apply list_elem_of_fmap in Hin. destruct Hin as (e0 & Hfind & He0).
    assert (Hstep : step (forEach pre) s
                    = {| badEntries := badEntries (forEach pre);
                         warnEntries := warnEntries (forEach pre) ++ [s];
                         entries := entries (forEach pre) |}).
    { rewrite step_parse, Hparse. rewrite bool_decide_eq_true_2; [reflexivity |].
      rewrite Hfind. now apply list_elem_of_fmap_2. }
    assert (Hst : st = fold_left step post (step (forEach pre) s)).
    { unfold st, forEach. now rewrite fold_left_app. }
    destruct (fold_step_grows post (step (forEach pre) s)) as (b & w & es & Hb & Hw & He).
    rewrite <- Hst, Hstep in Hb, Hw, He. cbn [badEntries warnEntries entries] in Hb, Hw, He.
    assert (He0' : e0 ∈ entries st) by (rewrite He; apply elem_of_app; now left).
    exists e0, w. split; [exact He0 |]. split; [now symmetry |]. split.
    { rewrite Hst. unfold forEach at 2. rewrite fold_left_app.
      apply fold_step_entries_ext. now rewrite Hstep. }
    split; [exact He0' |]. split.
    { intros e1 He1 Hk.
      apply (NoDup_fmap_inj_on find (entries st)); [apply forEach_NoDup | assumption.. |].
      congruence. }
    split; [now rewrite Hw, <- app_assoc |].
    rewrite (verify_strings keys flags _ Halias). fold st. f_equal.
    unfold completion_of. rewrite errorMessage_spec, Hw.
    destruct (badEntries st); [| reflexivity].
    destruct (warnEntries (forEach pre)); reflexivity.
  - destruct (InitHook_forEach_spec (pre ++ s :: post)) as [-> ->].
    destruct (InitHook_forEach_spec pre) as [-> ->].
    destruct (InitHook_forEach_spec post) as [-> ->].
    split.
    + rewrite omap_app. cbn [omap list_omap]. now rewrite Hparse.
    + unfold bad_entries. rewrite List.filter_app. cbn [List.filter].
      now rewrite Hparse.
Qed.

Lemma duplicate_find_not_accepted_witness :
  ((exists e0 w,
      e0 ∈ entries (forEach ["a=1"]) /\ find e0 = "a"
      /\ entries (forEach (["a=1"] ++ ["a=2"])) = entries (forEach (["a=1"] ++ []))
      /\ e0 ∈ entries (forEach (["a=1"] ++ ["a=2"]))
      /\ (forall e1, e1 ∈ entries (forEach (["a=1"] ++ ["a=2"])) -> find e1 = "a" -> e1 = e0)
      /\ warnEntries (forEach (["a=1"] ++ ["a=2"])) = warnEntries (forEach ["a=1"]) ++ "a=2" :: w
      /\ verify keys_as_listed (flags_with ["a=1"; "a=2"])
         = (<["alias" := alias_options (entries (forEach (["a=1"] ++ ["a=2"])))]>
              (flags_with ["a=1"; "a=2"]),
            Throw (NonFatalError
                     (failure_message (badEntries (forEach (["a=1"] ++ ["a=2"])))
                                      (warnEntries (forEach (["a=1"] ++ ["a=2"])))))))
   /\ InitHook.entries (InitHook.forEach (["a=1"] ++ ["a=2"]))
      = InitHook.entries (InitHook.forEach ["a=1"])
        ++ {| find := "a"; replacement := "2" |} :: InitHook.entries (InitHook.forEach [])
   /\ InitHook.badEntries (InitHook.forEach (["a=1"] ++ ["a=2"]))
      = InitHook.badEntries (InitHook.forEach ["a=1"])
        ++ InitHook.badEntries (InitHook.forEach []))
  /\ entries (forEach ["a=1"; "a=2"]) = [{| find := "a"; replacement := "1" |}]
  /\ warnEntries (forEach ["a=1"; "a=2"]) = ["a=2"].
Proof.
  split; [| split; reflexivity].
  apply (duplicate_find_not_accepted keys_as_listed (flags_with ["a=1"; "a=2"])
           ["a=1"] [] "a=2" {| find := "a"; replacement := "2" |}).
  - reflexivity.
  - reflexivity.
  - apply list_elem_of_here.
Defined.

(** ** The text of [JSON.stringify] *)

Lemma unquote_quote_code_unit (c : ascii) (u : string) :
  JSON.unquote_code_unit (JSON.quote_code_unit c +:+ u) = Some (c, u).
Proof.
  destruct c as [[] [] [] [] [] [] [] []]; reflexivity.
Qed.

(** The escaped text of a string, closed by its quote, is read back in
    one way only. *)
Lemma quote_body_inj (s s' u u' : string) :
  JSON.quote_body s +:+ String DQUOTE u = JSON.quote_body s' +:+ String DQUOTE u' ->
  s = s' /\ u = u'.
Proof.
  revert s'. induction s as [|c s IH]; intros [|c' s'] Heq; cbn [JSON.quote_body] in Heq.
  - simpl in Heq. injection Heq as ->. now split.
  - apply (f_equal JSON.unquote_code_unit) in Heq.
    rewrite append_assoc, unquote_quote_code_unit in Heq. discriminate.
  - apply (f_equal JSON.unquote_code_unit) in Heq.
    rewrite append_assoc, unquote_quote_code_unit in Heq. discriminate.
  - apply (f_equal JSON.unquote_code_unit) in Heq.
    rewrite !append_assoc, !unquote_quote_code_unit in Heq.
    injection Heq as -> Heq. destruct (IH s' Heq) as [-> ->]. now split.
Qed.

Lemma quote_inj (s s' u u' : string) :
  JSON.quote s +:+ u = JSON.quote s' +:+ u' -> s = s' /\ u = u'.
Proof.
  unfold JSON.quote. rewrite !append_assoc. simpl. intros [= Heq].
  now apply quote_body_inj.
Qed.

Lemma join_quote_inj (a b : list string) (u u' : string) :
  JSON.join "," (map JSON.quote a) +:+ String "]" u
  = JSON.join "," (map JSON.quote b) +:+ String "]" u' ->
  a = b /\ u = u'.
Proof.
  revert b. induction a as [|x a IH]; intros [|y b] Heq.
  - simpl in Heq. injection Heq as ->. now split.
  - exfalso. destruct b; cbn [map JSON.join] in Heq; unfold JSON.quote in Heq;
      simpl in Heq; discriminate.
  - exfalso. destruct a; cbn [map JSON.join] in Heq; unfold JSON.quote in Heq;
      simpl in Heq; discriminate.
  - destruct a as [|x' a], b as [|y' b]; cbn [map JSON.join] in Heq.
    + apply quote_inj in Heq. destruct Heq as [-> [= ->]]. now split.
    + rewrite !append_assoc in Heq. apply quote_inj in Heq.
      destruct Heq as [_ Heq]. simpl in Heq. discriminate.
    + rewrite !append_assoc in Heq. apply quote_inj in Heq.
      destruct Heq as [_ Heq]. simpl in Heq. discriminate.
    + rewrite !append_assoc in Heq. apply quote_inj in Heq.
      destruct Heq as [-> Heq]. simpl in Heq. injection Heq as Heq.
      destruct (IH (y' :: b) Heq) as [-> ->]. now split.
Qed.

(** [JSON.stringify] tells two arrays of strings apart, whatever text
    follows. *)
Lemma stringify_inj (a b : list string) (u u' : string) :
  JSON.stringify a +:+ u = JSON.stringify b +:+ u' -> a = b /\ u = u'.
Proof.
  unfold JSON.stringify. rewrite !append_assoc. simpl. intros [= Heq].
  now apply join_quote_inj.
Qed.

#[local] Opaque JSON.stringify.

Lemma append_inj_l (s t t' : string) : s +:+ t = s +:+ t' -> t = t'.
Proof.
  induction s as [|c s IH]; simpl; [trivial |]. intros [= H]. now apply IH.
Qed.

Lemma String_tail_eq (c : ascii) (s s' : string) : String c s = String c s' -> s = s'.
Proof. now intros [=]. Qed.

(** Drops the text the two sides of [H] start with. *)
Local Ltac strip_text H :=
  rewrite ?append_assoc in H; simpl in H;
  repeat lazymatch type of H with
         | String ?c ?s = String ?c ?s' => apply (String_tail_eq c s s') in H
         end.

(** The message of the verification error tells the two lists: it is
    the message of these bad entries and these duplicate entries only. *)
Lemma failure_message_inj (bad dup bad' dup' : list string) :
  failure_message bad dup = failure_message bad' dup' ->
  bad = bad' /\ dup = dup'.
Proof.
  unfold failure_message. intros H. apply append_inj_l in H.
  destruct bad as [|b bad], bad' as [|b' bad'];
    destruct dup as [|d dup], dup' as [|d' dup'];
    strip_text H; try discriminate; try (now split).
  all: apply stringify_inj in H; destruct H as [-> H]; strip_text H;
    try discriminate; try (now split).
  apply stringify_inj in H. destruct H as [-> _]. now split.
Qed.

(** ** C3: when [verify] throws, and with what message *)

(** C3, counterexample.  The older init.js returns on [a=1, a=2],
    whose second string is a duplicate entry; and where it throws, on
    [x=y, not-valid, x=z], its message lists the bad entry and not the
    duplicate [x=z]. *)
Lemma init_js_ignores_duplicates :
  bad_entries ["a=1"; "a=2"] = []
  /\ duplicate_entries ["a=1"; "a=2"] = ["a=2"]
  /\ snd (InitHook.verify keys_as_listed (flags_with ["a=1"; "a=2"])) = Return tt
  /\ duplicate_entries ["x=y"; "not-valid"; "x=z"] = ["x=z"]
  /\ snd (InitHook.verify keys_as_listed (flags_with ["x=y"; "not-valid"; "x=z"]))
     = Throw (Error ("plugin-alias verify; can not parse [" +:+ JSON.quote "not-valid"
                     +:+ "] each entry must be in the format of <xxx>=<yyy>.")
                    (Some false)).
Proof. repeat split. Qed.

(** C3, as amended.  On an array of strings, [verify] of PluginLoader.js
    throws exactly when the run has a bad entry or a duplicate entry;
    what it throws is a NonFatalError whose message is the header
    followed by the JSON text of the bad entries, when there are some,
    and the JSON text of the duplicate entries, when there are some,
    with a line break between the two parts; and this message is the
    message of no other two lists.  [verify] of the older init.js throws
    exactly when the run has a bad entry, an [Error] marked
    [$$bundler_fatal = false] whose message holds the JSON text of the
    bad entries and nothing of the duplicate entries. *)
Theorem verify_throws_iff_bad_or_duplicate
    (keys : key_order) (flags : gmap string value) (a : list string) :
  field flags "alias" = VArr (VStr <$> a) ->
  (exists c,
     verify keys flags = (<["alias" := alias_options (accepted_entries a)]> flags, c)
     /\ ((exists e, c = Throw e) <-> bad_entries a <> [] \/ duplicate_entries a <> [])
     /\ (forall e, c = Throw e ->
           e = NonFatalError (failure_message (bad_entries a) (duplicate_entries a)))
     /\ (forall bad dup, c = Throw (NonFatalError (failure_message bad dup)) ->
           bad = bad_entries a /\ dup = duplicate_entries a))
  /\ (exists c,
        InitHook.verify keys flags
        = (<["alias" := VArr (map entry_value (omap parse a))]> flags, c)
        /\ ((exists e, c = Throw e) <-> bad_entries a <> [])
        /\ (forall e, c = Throw e ->
              e = Error ("plugin-alias verify; can not parse "
                         +:+ JSON.stringify (bad_entries a)
                         +:+ " each entry must be in the format of <xxx>=<yyy>.")
                        (Some false))).
Proof.
  intros Halias. split.
  - exists (completion_of (forEach a)).
    rewrite (verify_strings keys flags a Halias).
    destruct (forEach_spec a) as (Hb & Hw & He). rewrite He.
    split; [reflexivity |]. split; [| split].
    + split.
      * intros [e Hc]. apply completion_of_Throw in Hc. rewrite <- Hb, <- Hw. tauto.
      * intros Hne. destruct (completion_of (forEach a)) as [[]|e] eqn:Hc; [| eauto].
        apply completion_of_Return in Hc. rewrite Hb, Hw in Hc. tauto.
    + intros e Hc. apply completion_of_Throw in Hc. rewrite Hb, Hw in Hc. tauto.
    + intros bad dup Hc. apply completion_of_Throw in Hc. rewrite Hb, Hw in Hc.
      destruct Hc as [Hmsg _]. apply failure_message_inj. congruence.
  - rewrite (InitHook_verify_strings keys flags a Halias). eexists. split; [reflexivity |].
    destruct (bad_entries a) as [|b bs]; split.
    + split; [intros [e [=]] | intros H; now contradiction H].
    + intros e [=].
    + split; [discriminate | eauto].
    + intros e [= <-]. reflexivity.
Qed.

Lemma verify_throws_iff_bad_or_duplicate_witness :
  (exists c,
     verify keys_as_listed (flags_with ["x=y"; "not-valid"; "x=z"])
     = (<["alias" := alias_options (accepted_entries ["x=y"; "not-valid"; "x=z"])]>
          (flags_with ["x=y"; "not-valid"; "x=z"]), c)
     /\ ((exists e, c = Throw e)
         <-> bad_entries ["x=y"; "not-valid"; "x=z"] <> []
             \/ duplicate_entries ["x=y"; "not-valid"; "x=z"] <> [])
     /\ (forall e, c = Throw e ->
           e = NonFatalError
                 (failure_message (bad_entries ["x=y"; "not-valid"; "x=z"])
                                  (duplicate_entries ["x=y"; "not-valid"; "x=z"])))
     /\ (forall bad dup, c = Throw (NonFatalError (failure_message bad dup)) ->
           bad = bad_entries ["x=y"; "not-valid"; "x=z"]
           /\ dup = duplicate_entries ["x=y"; "not-valid"; "x=z"]))
  /\ (exists c,
        InitHook.verify keys_as_listed (flags_with ["x=y"; "not-valid"; "x=z"])
        = (<["alias" := VArr (map entry_value (omap parse ["x=y"; "not-valid"; "x=z"]))]>
             (flags_with ["x=y"; "not-valid"; "x=z"]), c)
        /\ ((exists e, c = Throw e) <-> bad_entries ["x=y"; "not-valid"; "x=z"] <> [])
        /\ (forall e, c = Throw e ->
              e = Error ("plugin-alias verify; can not parse "
                         +:+ JSON.stringify (bad_entries ["x=y"; "not-valid"; "x=z"])
                         +:+ " each entry must be in the format of <xxx>=<yyy>.")
                        (Some false))).
Proof.
  apply (verify_throws_iff_bad_or_duplicate keys_as_listed
           (flags_with ["x=y"; "not-valid"; "x=z"]) ["x=y"; "not-valid"; "x=z"]).
  reflexivity.
Defined.

(** The second and third testable properties of the specification. *)
Example verify_bad_entry :
  bad_entries ["x=y"; "not-valid"; "p=q"] = ["not-valid"]
  /\ duplicate_entries ["x=y"; "not-valid"; "p=q"] = []
  /\ snd (verify keys_as_listed (flags_with ["x=y"; "not-valid"; "p=q"]))
     = Throw (NonFatalError
         ("plugin-alias verification failure:" +:+ str1 LF
          +:+ "- can not parse [" +:+ JSON.quote "not-valid"
          +:+ "] each entry must be a 'string' in the format of '<xxx>=<yyy>'.")).
Proof. repeat split. Qed.

Example verify_duplicate_entry :
  bad_entries ["a=1"; "a=2"] = []
  /\ duplicate_entries ["a=1"; "a=2"] = ["a=2"]
  /\ accepted_entries ["a=1"; "a=2"] = [{| find := "a"; replacement := "1" |}]
  /\ snd (verify keys_as_listed (flags_with ["a=1"; "a=2"]))
     = Throw (NonFatalError
         ("plugin-alias verification failure:" +:+ str1 LF
          +:+ "- the following entries overwrite previous entries ["
          +:+ JSON.quote "a=2" +:+ "].")).
Proof. repeat split. Qed.

Example verify_bad_and_duplicate :
  snd (verify keys_as_listed (flags_with ["x=y"; "not-valid"; "x=z"]))
  = Throw (NonFatalError
      ("plugin-alias verification failure:" +:+ str1 LF
       +:+ "- can not parse [" +:+ JSON.quote "not-valid"
       +:+ "] each entry must be a 'string' in the format of '<xxx>=<yyy>'."
       +:+ str1 LF
       +:+ "- the following entries overwrite previous entries ["
       +:+ JSON.quote "x=z" +:+ "].")).
Proof. reflexivity. Qed.

(** ** C5: well-formed entries with distinct [find] keys *)

Lemma forEach_all_accepted (a : list string) (es : list AliasEntry) :
  Forall2 (fun s e => parse s = Some e) a es ->
  NoDup (find <$> es) ->
  entries (forEach a) = es /\ warnEntries (forEach a) = [] /\ badEntries (forEach a) = [].
Proof.
  intros Hall Hnd. destruct (forEach_spec a) as (-> & -> & ->).
  apply (accepted_after_all [] a es Hall Hnd).
  intros k _ Hk. now apply elem_of_nil in Hk.
Qed.

Lemma verify_clean_run (keys : key_order) (flags : gmap string value) (a : list string) :
  field flags "alias" = VArr (VStr <$> a) ->
  warnEntries (forEach a) = [] -> badEntries (forEach a) = [] ->
  verify keys flags = (<["alias" := alias_options (entries (forEach a))]> flags, Return tt).
Proof.
  intros Halias Hw Hb. rewrite (verify_strings keys flags a Halias). f_equal.
  apply completion_of_Return. now split.
Qed.

(** Entries written [find=replacement], one [=] each, parse to their two
    sides. *)
Lemma simple_entries_parse (es : list AliasEntry) :
  Forall (fun e => find e <> "" /\ replacement e <> ""
                   /\ one_line (find e) = true /\ one_line (replacement e) = true
                   /\ count_char EQUALS (replacement e) = 0) es ->
  Forall2 (fun s e => parse s = Some e)
          (map (fun e => find e +:+ "=" +:+ replacement e) es) es.
Proof.
  intros Hall. induction Hall as [|e es (Hf & Hr & Hlf & Hlr & Hc) _ IH];
    cbn [map]; constructor; [| exact IH].
  apply parse_Some. apply exec_regex_split; try assumption.
  clear -Hc. induction (replacement e) as [|c r IH]; [reflexivity |].
  cbn [count_char equals_only_last] in *.
  destruct (Ascii.eqb c EQUALS); [discriminate | now apply IH].
Qed.

(** C5.  When every string of the array matches, [es] being what the
    strings parse to, in order, and the [find] keys of [es] are pairwise
    distinct, [verify] returns without an error and leaves [{ entries }]
    with exactly [es] in [flags.alias].  The empty array is included. *)
Theorem verify_well_formed_unique
    (keys : key_order) (flags : gmap string value) (a : list string) (es : list AliasEntry) :
  field flags "alias" = VArr (VStr <$> a) ->
  Forall2 (fun s e => parse s = Some e) a es ->
  NoDup (find <$> es) ->
  verify keys flags = (<["alias" := alias_options es]> flags, Return tt).
Proof.
  intros Halias Hall Hnd.
  destruct (forEach_all_accepted a es Hall Hnd) as (He & Hw & Hb).
  rewrite <- He. now apply verify_clean_run.
Qed.

Lemma verify_well_formed_unique_witness :
  verify keys_as_listed (flags_with ["x=y"; "p=q"])
  = (<["alias" := alias_options [{| find := "x"; replacement := "y" |};
                                      {| find := "p"; replacement := "q" |}]]>
            (flags_with ["x=y"; "p=q"]), Return tt).
Proof.
  apply (verify_well_formed_unique keys_as_listed (flags_with ["x=y"; "p=q"]) ["x=y"; "p=q"]).
  - reflexivity.
  - repeat constructor.
  - apply (bool_decide_unpack _). vm_compute. exact I.
Defined.

(** The sixth testable property of the specification. *)
Example verify_empty_array :
  verify keys_as_listed (flags_with [])
  = (<["alias" := alias_options []]> (flags_with []), Return tt).
Proof. reflexivity. Qed.

(** The same for entries written [find=replacement], one [=] each. *)
Lemma verify_simple_entries (keys : key_order) (flags : gmap string value) (es : list AliasEntry) :
  field flags "alias"
  = VArr (VStr <$> map (fun e => find e +:+ "=" +:+ replacement e) es) ->
  Forall (fun e => find e <> "" /\ replacement e <> ""
                   /\ one_line (find e) = true /\ one_line (replacement e) = true
                   /\ count_char EQUALS (replacement e) = 0) es ->
  NoDup (find <$> es) ->
  verify keys flags = (<["alias" := alias_options es]> flags, Return tt).
Proof.
  intros Halias Hall Hnd.
  destruct (forEach_all_accepted _ es (simple_entries_parse es Hall) Hnd) as (He & Hw & Hb).
  rewrite <- He. now apply verify_clean_run.
Qed.

(** ** C6: the [find] keys of the result *)

(** C6.  Whatever the strings of the array, the entries [verify] leaves
    in [flags.alias] have pairwise distinct [find] keys, whether it
    throws or not. *)
Theorem verify_find_keys_distinct (keys : key_order) (flags : gmap string value) (a : list string) :
  field flags "alias" = VArr (VStr <$> a) ->
  exists es c,
    verify keys flags = (<["alias" := alias_options es]> flags, c)
    /\ NoDup (find <$> es).
Proof.
  intros Halias. exists (entries (forEach a)), (completion_of (forEach a)).
  split; [now apply verify_strings | apply forEach_NoDup].
Qed.

Lemma verify_find_keys_distinct_witness :
  exists es c,
    verify keys_as_listed (flags_with ["a=1"; "b=2"; "a=3"])
    = (<["alias" := alias_options es]> (flags_with ["a=1"; "b=2"; "a=3"]), c)
    /\ NoDup (find <$> es).
Proof.
  apply (verify_find_keys_distinct keys_as_listed
           (flags_with ["a=1"; "b=2"; "a=3"]) ["a=1"; "b=2"; "a=3"]).
  reflexivity.
Defined.

(** ** C8: no state between two calls *)

Lemma field_insert (flags : gmap string value) (k : string) (v : value) :
  field (<[k := v]> flags) k = v.
Proof. unfold field. now rewrite lookup_insert_eq. Qed.

Lemma field_insert_ne (flags : gmap string value) (k k' : string) (v : value) :
  k <> k' -> field (<[k := v]> flags) k' = field flags k'.
Proof. intros Hne. unfold field. now rewrite lookup_insert_ne. Qed.

(** [verify] reads nothing of the flags object but [flags.alias]. *)
Lemma verify_reads_alias_only (keys : key_order) (flags1 flags2 : gmap string value) :
  field flags1 "alias" = field flags2 "alias" ->
  snd (verify keys flags1) = snd (verify keys flags2)
  /\ field (fst (verify keys flags1)) "alias" = field (fst (verify keys flags2)) "alias".
Proof.
  intros Heq. unfold verify. rewrite <- Heq.
  destruct (field flags1 "alias") as [| | | | |arr|] eqn:H1;
    cbn [fst snd]; try (split; [reflexivity | congruence]).
  destruct (Values.forEach arr) as [st|e]; cbn [fst snd];
    [| split; [reflexivity | congruence]].
  destruct (negb _); cbn [fst snd]; rewrite !field_insert; split; reflexivity.
Qed.

(** *** The store *)

(** Without the [g] and the [y] flag, [exec] on a RegExp object is the
    function [exec] of the pattern, and the object stays as it is,
    whatever its [lastIndex]. *)
Lemma search_exec (r : RegExp.regex) (input : string) (i : nat) :
  match Store.search r false input i with
  | Some (_, result) => Some result
  | None => None
  end = exec r input.
Proof.
  revert i. induction input as [|c input IH]; intros i; cbn [Store.search exec].
  - destruct (alts r ""); reflexivity.
  - destruct (alts r (String c input)); [apply IH | reflexivity].
Qed.

Lemma RegExpBuiltinExec_no_flags (R : Store.RegExpObject) (input : string) :
  Store.global R = false -> Store.sticky R = false ->
  Store.RegExpBuiltinExec R input = (R, exec (Store.matcher R) input).
Proof.
  intros Hg Hy. unfold Store.RegExpBuiltinExec. rewrite Hg, Hy.
  cbn [orb Nat.ltb Nat.leb Store.from_index].
  rewrite <- (search_exec (Store.matcher R) input 0).
  destruct (Store.search (Store.matcher R) false input 0) as [[e result]|]; reflexivity.
Qed.

(** With the [g] flag the same object gives two different answers to
    the same question: the state the literal of [verify] does not have. *)
Example exec_with_g_flag_carries_lastIndex :
  let R := {| Store.matcher := regex; Store.global := true; Store.sticky := false;
              Store.lastIndex := 0 |} in
  Store.RegExpBuiltinExec R "a=b" = (Store.set_lastIndex R 3, Some ["a=b"; "a"; "b"])
  /\ Store.RegExpBuiltinExec (Store.set_lastIndex R 3) "a=b" = (R, None).
Proof. split; reflexivity. Qed.

(** The reducer on the elements of the Array of entries. *)
Lemma Store_reduce_overrides (es : list AliasEntry) (key : string) :
  Store.reduce_overrides (map entry_value es) key = Return (reduce_overrides es key).
Proof.
  unfold Store.reduce_overrides, reduce_overrides.
  generalize (Boolean false) as x.
  induction es as [|e es IH]; intros x; [reflexivity |].
  cbn [map fold_left]. rewrite <- IH. f_equal.
Qed.

(** One turn of the callback over the store is one turn of the callback
    on values; only the Arrays of the call change. *)
Lemma Store_callback (σ : Store.store) (st : Values.loop_state) (entry : value) :
  Store.callback (length σ) (length σ + 1) (length σ + 2) (length σ + 3) entry
    (σ ++ objects_of st)
  = match Values.step st entry with
    | Return st' => (σ ++ objects_of st', Return tt)
    | Throw e => (σ ++ objects_of st, Throw e)
    end.
Proof.
  unfold Store.callback, Store.bind, Store.RegExp_prototype_exec, Values.step.
  rewrite lookup_app_r, Nat.sub_diag by lia. cbn [objects_of lookup list_lookup].
  destruct (ToString entry) as [text|e]; [| reflexivity].
  rewrite RegExpBuiltinExec_no_flags by reflexivity. cbn [Store.matcher].
  rewrite list_insert_id
    by (rewrite lookup_app_r, Nat.sub_diag by lia; reflexivity).
  assert (Hbad : Store.Array_prototype_push (length σ + 1) entry (σ ++ objects_of st)
                 = (σ ++ objects_of {| Values.badEntries := Values.badEntries st ++ [entry];
                                       Values.warnEntries := Values.warnEntries st;
                                       Values.entries := Values.entries st |},
                    Return tt)).
  { unfold Store.Array_prototype_push.
    rewrite lookup_app_r by lia. replace (length σ + 1 - length σ) with 1 by lia.
    cbn [objects_of lookup list_lookup]. now rewrite insert_app_r. }
  destruct (exec regex text) as [m|]; [| exact Hbad].
  destruct (3 <=? length m)%nat; [| exact Hbad].
  unfold Store.Array_elements. rewrite lookup_app_r by lia.
  replace (length σ + 3 - length σ) with 3 by lia.
  cbn [objects_of lookup list_lookup]. unfold Store.lift.
  rewrite Store_reduce_overrides.
  destruct (ToBoolean (reduce_overrides (Values.entries st) (nth 1 m ""))).
  - unfold Store.Array_prototype_push.
    rewrite lookup_app_r by lia. replace (length σ + 2 - length σ) with 2 by lia.
    cbn [objects_of lookup list_lookup]. now rewrite insert_app_r.
  - unfold Store.Array_prototype_push.
    rewrite lookup_app_r by lia. replace (length σ + 3 - length σ) with 3 by lia.
    cbn [objects_of lookup list_lookup]. rewrite insert_app_r.
    unfold objects_of. cbn [Values.badEntries Values.warnEntries Values.entries].
    now rewrite map_app.
Qed.

Lemma Store_forEach (σ : Store.store) (a : list value) (st : Values.loop_state) :
  exists st',
    Store.forEach (Store.callback (length σ) (length σ + 1) (length σ + 2) (length σ + 3))
      a (σ ++ objects_of st)
    = (σ ++ objects_of st',
       match Values.forEach_from st a with
       | Return _ => Return tt
       | Throw e => Throw e
       end)
    /\ (forall st'', Values.forEach_from st a = Return st'' -> st' = st'').
Proof.
  revert st. induction a as [|entry a IH]; intros st.
  - exists st. split; [reflexivity | now intros st'' [= <-]].
  - cbn [Store.forEach Values.forEach_from]. unfold Store.bind.
    rewrite Store_callback. destruct (Values.step st entry) as [st1|e].
    + apply IH.
    + exists st. split; [reflexivity | discriminate].
Qed.

(** [verify] over the store does to the flags object what [verify] does
    to its properties, completes as it does, and leaves every other
    object of the store as it was: all it adds is new objects. *)
Lemma Store_verify (keys : key_order) (σ : Store.store) (flags : nat)
    (props : gmap string value) :
  σ !! flags = Some (Store.PlainObj props) ->
  exists fresh,
    Store.verify keys flags σ
    = (<[flags := Store.PlainObj (fst (verify keys props))]> σ ++ fresh,
       snd (verify keys props)).
Proof.
  intros Hflags. pose proof (lookup_lt_Some _ _ _ Hflags) as Hlt.
  unfold Store.verify, Store.bind, Store.new, Store.Get.
  rewrite lookup_app_l, Hflags by exact Hlt.
  unfold verify. destruct (field props "alias") as [| | | | |a|];
    try (eexists; cbn [fst snd Store.ret]; rewrite list_insert_id by exact Hflags;
         reflexivity).
  rewrite !length_app. cbn [length]. rewrite <- !app_assoc. cbn [app].
  replace (length σ + 1 + 1) with (length σ + 2) by lia.
  replace (length σ + 2 + 1) with (length σ + 3) by lia.
  change [Store.RegExpObj {| Store.matcher := regex; Store.global := false;
                             Store.sticky := false; Store.lastIndex := 0 |};
          Store.ArrayObj []; Store.ArrayObj []; Store.ArrayObj []]
    with (objects_of Values.initial).
  replace (length σ) with (length σ + 0) at 1 by lia.
  destruct (Store_forEach σ a Values.initial) as (st' & Hrun & Hst).
  replace (length σ + 0) with (length σ) by lia. rewrite Hrun.
  unfold Values.forEach. destruct (Values.forEach_from Values.initial a) as [st|e].
  - rewrite (Hst st eq_refl). clear Hrun Hst st'.
    unfold Store.Array_elements at 1. rewrite lookup_app_r by lia.
    replace (length σ + 3 - length σ) with 3 by lia.
    cbn [objects_of lookup list_lookup].
    unfold Store.Set_. rewrite lookup_app_l, Hflags by exact Hlt.
    rewrite insert_app_l by exact Hlt.
    unfold Store.Array_elements.
    rewrite lookup_app_r by (rewrite length_insert; lia).
    rewrite length_insert.
    replace (length σ + 1 - length σ) with 1 by lia.
    cbn [objects_of lookup list_lookup].
    rewrite lookup_app_r by (rewrite length_insert; lia).
    rewrite length_insert.
    replace (length σ + 2 - length σ) with 2 by lia.
    cbn [objects_of lookup list_lookup].
    exists (objects_of st).
    destruct (negb (String.eqb (Values.errorMessage keys (Values.badEntries st)
                                  (Values.warnEntries st)) failure_header));
      reflexivity.
  - exists (objects_of st'). cbn [fst snd].
    now rewrite list_insert_id by exact Hflags.
Qed.

(** C8.  [verify] over the store of objects, called on two flags
    objects that hold the same array of strings in [alias], one call
    after the other and whatever objects earlier calls have left in the
    store: both calls complete in the same way, with the same error and
    the same message when they throw, and assign the same [{ entries }]
    to [alias], the one the array determines.  A call changes no object
    that was in the store but the flags object it is given: the RegExp
    object and the Arrays it works on are new in each call, and without
    the [g] and [y] flags [exec] neither reads nor writes [lastIndex]. *)
Theorem verify_deterministic
    (keys : key_order) (σ : Store.store) (flags1 flags2 : nat)
    (props1 props2 : gmap string value) (a : list string) :
  σ !! flags1 = Some (Store.PlainObj props1) ->
  σ !! flags2 = Some (Store.PlainObj props2) ->
  flags1 <> flags2 ->
  field props1 "alias" = VArr (VStr <$> a) ->
  field props2 "alias" = VArr (VStr <$> a) ->
  exists σ1 σ2 c,
    Store.verify keys flags1 σ = (σ1, c)
    /\ Store.verify keys flags2 σ1 = (σ2, c)
    /\ (c = Return tt <-> bad_entries a = [] /\ duplicate_entries a = [])
    /\ (forall e, c = Throw e ->
          e = NonFatalError (failure_message (bad_entries a) (duplicate_entries a)))
    /\ σ1 !! flags1
       = Some (Store.PlainObj (<["alias" := alias_options (accepted_entries a)]> props1))
    /\ σ2 !! flags2
       = Some (Store.PlainObj (<["alias" := alias_options (accepted_entries a)]> props2))
    /\ σ2 !! flags1 = σ1 !! flags1
    /\ (forall l, l < length σ -> l <> flags1 -> σ1 !! l = σ !! l)
    /\ (forall l, l < length σ1 -> l <> flags2 -> σ2 !! l = σ1 !! l).
Proof.
  intros H1 H2 Hne Ha1 Ha2.
  pose proof (lookup_lt_Some _ _ _ H1) as Hlt1.
  pose proof (lookup_lt_Some _ _ _ H2) as Hlt2.
  destruct (forEach_spec a) as (Hb & Hw & He).
  destruct (Store_verify keys σ flags1 props1 H1) as [fresh1 Hrun1].
  rewrite (verify_strings keys props1 a Ha1), He in Hrun1. cbn [fst snd] in Hrun1.
  set (σ1 := <[flags1 := Store.PlainObj
                 (<["alias" := alias_options (accepted_entries a)]> props1)]> σ
             ++ fresh1) in *.
  assert (H2' : σ1 !! flags2 = Some (Store.PlainObj props2)).
  { unfold σ1. rewrite lookup_app_l by (rewrite length_insert; exact Hlt2).
    now rewrite list_lookup_insert_ne. }
  destruct (Store_verify keys σ1 flags2 props2 H2') as [fresh2 Hrun2].
  rewrite (verify_strings keys props2 a Ha2), He in Hrun2. cbn [fst snd] in Hrun2.
  assert (Hσ1 : σ1 !! flags1
                = Some (Store.PlainObj
                          (<["alias" := alias_options (accepted_entries a)]> props1))).
  { unfold σ1. rewrite lookup_app_l by (rewrite length_insert; exact Hlt1).
    now apply list_lookup_insert_eq. }
  pose proof (lookup_lt_Some _ _ _ H2') as Hlt2'.
  pose proof (lookup_lt_Some _ _ _ Hσ1) as Hlt1'.
  eexists _, _, _. split; [exact Hrun1 |]. split; [exact Hrun2 |].
  split; [rewrite completion_of_Return, Hb, Hw; tauto |]. split.
  { intros e Hc. apply completion_of_Throw in Hc. rewrite Hb, Hw in Hc. tauto. }
  split; [exact Hσ1 |]. split.
  { rewrite lookup_app_l by (rewrite length_insert; exact Hlt2').
    now apply list_lookup_insert_eq. }
  split.
  { rewrite lookup_app_l by (rewrite length_insert; exact Hlt1').
    now rewrite list_lookup_insert_ne by congruence. }
  split.
  - intros l Hl Hl1. unfold σ1.
    rewrite lookup_app_l by (rewrite length_insert; exact Hl).
    now rewrite list_lookup_insert_ne by congruence.
  - intros l Hl Hl2.
    rewrite lookup_app_l by (rewrite length_insert; exact Hl).
    now rewrite list_lookup_insert_ne by congruence.
Qed.

Lemma verify_deterministic_witness :
  exists σ1 σ2 c,
    Store.verify keys_as_listed 0 two_flags_objects = (σ1, c)
    /\ Store.verify keys_as_listed 1 σ1 = (σ2, c)
    /\ (c = Return tt
        <-> bad_entries ["x=y"; "oops"; "x=z"] = []
            /\ duplicate_entries ["x=y"; "oops"; "x=z"] = [])
    /\ (forall e, c = Throw e ->
          e = NonFatalError
                (failure_message (bad_entries ["x=y"; "oops"; "x=z"])
                                 (duplicate_entries ["x=y"; "oops"; "x=z"])))
    /\ σ1 !! 0
       = Some (Store.PlainObj
                 (<["alias" := alias_options (accepted_entries ["x=y"; "oops"; "x=z"])]>
                    (flags_with ["x=y"; "oops"; "x=z"])))
    /\ σ2 !! 1
       = Some (Store.PlainObj
                 (<["alias" := alias_options (accepted_entries ["x=y"; "oops"; "x=z"])]>
                    (<["verbose" := VBool false]> (flags_with ["x=y"; "oops"; "x=z"]))))
    /\ σ2 !! 0 = σ1 !! 0
    /\ (forall l, l < length two_flags_objects -> l <> 0 -> σ1 !! l = two_flags_objects !! l)
    /\ (forall l, l < length σ1 -> l <> 1 -> σ2 !! l = σ1 !! l).
Proof.
  apply (verify_deterministic keys_as_listed two_flags_objects 0 1
           (flags_with ["x=y"; "oops"; "x=z"])
           (<["verbose" := VBool false]> (flags_with ["x=y"; "oops"; "x=z"]))
           ["x=y"; "oops"; "x=z"]).
  - reflexivity.
  - reflexivity.
  - discriminate.
  - reflexivity.
  - reflexivity.
Defined.

(** ** C9: an [alias] that is not an array *)

(** C9.  When [flags.alias] is not an array, both copies of [verify]
    return without an error and leave the flags object as it was. *)
Theorem verify_not_array_unchanged (keys : key_order) (flags : gmap string value) :
  Array_isArray (field flags "alias") = false ->
  verify keys flags = (flags, Return tt)
  /\ InitHook.verify keys flags = (flags, Return tt).
Proof.
  intros Hna. split; [now apply verify_not_array |].
  unfold InitHook.verify. now destruct (field flags "alias").
Qed.

Lemma verify_not_array_unchanged_witness :
  verify keys_as_listed {[ "watch" := VBool true ]} = ({[ "watch" := VBool true ]}, Return tt)
  /\ InitHook.verify keys_as_listed {[ "watch" := VBool true ]}
     = ({[ "watch" := VBool true ]}, Return tt).
Proof.
  apply (verify_not_array_unchanged keys_as_listed {[ "watch" := VBool true ]}). reflexivity.
Defined.

(** ** C10: the assignment comes before the throw *)

Lemma alias_options_not_array (es : list AliasEntry) (arr : list value) :
  alias_options es <> VArr arr.
Proof. discriminate. Qed.

(** C10.  Whatever the array in [flags.alias] holds, when a copy of
    [verify] throws its verification error, a NonFatalError in
    PluginLoader.js and an [Error] marked [$$bundler_fatal = false] in
    the older init.js, the loop has run to its end with a bad entry or
    (PluginLoader.js) a duplicate entry, and [flags.alias] has already
    been replaced by the accepted entries, [{ entries }] in
    PluginLoader.js and the bare Array in init.js: the flags object the
    caller holds differs from the one it passed in exactly in [alias].
    The one other error a copy can throw is the TypeError of an entry
    that cannot be converted to a string, which gets out of the loop
    before the assignment and leaves the flags object as it was. *)
Theorem verify_throws_after_assignment (keys : key_order) (flags : gmap string value) :
  (forall flags' e,
     verify keys flags = (flags', Throw e) ->
     exists a,
       field flags "alias" = VArr a
       /\ ((exists st,
              Values.forEach a = Return st
              /\ (Values.badEntries st <> [] \/ Values.warnEntries st <> [])
              /\ e = NonFatalError
                       (Values.errorMessage keys
                          (Values.badEntries st) (Values.warnEntries st))
              /\ flags' = <["alias" := alias_options (Values.entries st)]> flags
              /\ field flags' "alias"
                 = VObj {[ "entries" := VArr (map entry_value (Values.entries st)) ]}
              /\ field flags' "alias" <> field flags "alias"
              /\ (forall k, k <> "alias" -> field flags' k = field flags k))
           \/ (Values.forEach a = Throw TypeError /\ e = TypeError /\ flags' = flags)))
  /\ (forall flags' e,
        InitHook.verify keys flags = (flags', Throw e) ->
        exists a,
          field flags "alias" = VArr a
          /\ ((exists st,
                 InitHook.Values.forEach a = Return st
                 /\ InitHook.Values.badEntries st <> []
                 /\ e = Error (InitHook.Values.errorMessage keys st) (Some false)
                 /\ flags' = <["alias" := VArr (map entry_value (InitHook.Values.entries st))]>
                               flags
                 /\ field flags' "alias"
                    = VArr (map entry_value (InitHook.Values.entries st))
                 /\ (forall k, k <> "alias" -> field flags' k = field flags k))
              \/ (InitHook.Values.forEach a = Throw TypeError
                  /\ e = TypeError /\ flags' = flags))).
Proof.
  split.
  - intros flags' e Hv. unfold verify in Hv.
    destruct (field flags "alias") as [| | | | |arr|] eqn:Halias; try discriminate.
    exists arr. split; [reflexivity |].
    destruct (Values.forEach arr) as [st|e0] eqn:Hloop.
    + left. exists st. split; [reflexivity |].
      destruct (String.eqb (Values.errorMessage keys (Values.badEntries st)
                              (Values.warnEntries st)) failure_header) eqn:Hmsg;
        cbn [negb] in Hv; [discriminate |].
      injection Hv as <- <-. split.
      { destruct (Values.badEntries st) as [|b bs] eqn:Hb; [| left; discriminate].
        destruct (Values.warnEntries st) as [|w ws] eqn:Hw; [| right; discriminate].
        assert (H : String.eqb (Values.errorMessage keys [] []) failure_header = true)
          by (apply Values_errorMessage_header; tauto).
        congruence. }
      split; [reflexivity |]. split; [reflexivity |].
      rewrite field_insert. split; [reflexivity |]. split; [discriminate |].
      intros k Hk. apply field_insert_ne. congruence.
    + right. injection Hv as <- <-.
      pose proof (Values_forEach_from_throws arr Values.initial e0 Hloop) as ->.
      repeat split.
  - intros flags' e Hv. unfold InitHook.verify in Hv.
    destruct (field flags "alias") as [| | | | |arr|] eqn:Halias; try discriminate.
    exists arr. split; [reflexivity |].
    destruct (InitHook.Values.forEach arr) as [st|e0] eqn:Hloop.
    + left. exists st. split; [reflexivity |].
      destruct (InitHook.Values.badEntries st) as [|b bs] eqn:Hb;
        cbn [length Nat.ltb Nat.leb] in Hv; [discriminate |].
      injection Hv as <- <-. split; [discriminate |]. split; [reflexivity |].
      split; [reflexivity |]. rewrite field_insert. split; [reflexivity |].
      intros k Hk. apply field_insert_ne. congruence.
    + right. injection Hv as <- <-.
      pose proof (InitHook_Values_forEach_from_throws arr InitHook.Values.initial e0 Hloop)
        as ->.
      repeat split.
Qed.

Lemma verify_throws_after_assignment_witness :
  exists a,
    field (flags_holding [VNum 123; VStr "a=b"]) "alias" = VArr a
    /\ ((exists st,
           Values.forEach a = Return st
           /\ (Values.badEntries st <> [] \/ Values.warnEntries st <> [])
           /\ NonFatalError
                ("plugin-alias verification failure:" +:+ str1 LF
                 +:+ "- can not parse [123] each entry must be a 'string' in the "
                 +:+ "format of '<xxx>=<yyy>'.")
              = NonFatalError
                  (Values.errorMessage keys_as_listed
                     (Values.badEntries st) (Values.warnEntries st))
           /\ <["alias" := alias_options [{| find := "a"; replacement := "b" |}]]>
                (flags_holding [VNum 123; VStr "a=b"])
              = <["alias" := alias_options (Values.entries st)]>
                  (flags_holding [VNum 123; VStr "a=b"])
           /\ field (<["alias" := alias_options [{| find := "a"; replacement := "b" |}]]>
                       (flags_holding [VNum 123; VStr "a=b"])) "alias"
              = VObj {[ "entries" := VArr (map entry_value (Values.entries st)) ]}
           /\ field (<["alias" := alias_options [{| find := "a"; replacement := "b" |}]]>
                       (flags_holding [VNum 123; VStr "a=b"])) "alias"
              <> field (flags_holding [VNum 123; VStr "a=b"]) "alias"
           /\ (forall k, k <> "alias" ->
                 field (<["alias" := alias_options [{| find := "a"; replacement := "b" |}]]>
                          (flags_holding [VNum 123; VStr "a=b"])) k
                 = field (flags_holding [VNum 123; VStr "a=b"]) k))
        \/ (Values.forEach a = Throw TypeError
            /\ NonFatalError
                 ("plugin-alias verification failure:" +:+ str1 LF
                  +:+ "- can not parse [123] each entry must be a 'string' in the "
                  +:+ "format of '<xxx>=<yyy>'.")
               = TypeError
            /\ <["alias" := alias_options [{| find := "a"; replacement := "b" |}]]>
                 (flags_holding [VNum 123; VStr "a=b"])
               = flags_holding [VNum 123; VStr "a=b"])).
Proof.
  apply (proj1 (verify_throws_after_assignment keys_as_listed
                  (flags_holding [VNum 123; VStr "a=b"]))
           (<["alias" := alias_options [{| find := "a"; replacement := "b" |}]]>
              (flags_holding [VNum 123; VStr "a=b"]))
           (NonFatalError
              ("plugin-alias verification failure:" +:+ str1 LF
               +:+ "- can not parse [123] each entry must be a 'string' in the "
               +:+ "format of '<xxx>=<yyy>'."))).
  reflexivity.
Defined.

(** A Number among the entries is a bad entry, written as a Number in
    the message; the entry after it is accepted and assigned. *)
Example verify_throws_on_a_number :
  verify keys_as_listed {[ "alias" := VArr [VNum 123; VStr "a=b"] ]}
  = ({[ "alias" := alias_options [{| find := "a"; replacement := "b" |}] ]},
     Throw (NonFatalError
       ("plugin-alias verification failure:" +:+ str1 LF
        +:+ "- can not parse [123] each entry must be a 'string' in the format of "
        +:+ "'<xxx>=<yyy>'.")))
  /\ InitHook.verify keys_as_listed {[ "alias" := VArr [VNum 123; VStr "a=b"] ]}
     = ({[ "alias" := VArr [entry_value {| find := "a"; replacement := "b" |}] ]},
        Throw (Error
          "plugin-alias verify; can not parse [123] each entry must be in the format of <xxx>=<yyy>."
          (Some false))).
Proof. split; reflexivity. Qed.

(** An object with a property [toString] cannot be converted: the
    TypeError gets out and [flags.alias] keeps the array. *)
Example verify_TypeError_before_assignment :
  verify keys_as_listed
    {[ "alias" := VArr [VStr "a=b"; VObj {[ "toString" := VNum 1 ]}] ]}
  = ({[ "alias" := VArr [VStr "a=b"; VObj {[ "toString" := VNum 1 ]}] ]}, Throw TypeError).
Proof. reflexivity. Qed.

(** ** C4: the default of the flag *)

Section Default.

Variable JSON_parse : string -> value + string.


(** A variable that holds something else than a string counts as unset. *)
Lemma default_not_a_string (prefix : string) (envVars : gmap string value) :
  typeof (field envVars (prefix +:+ "_ALIAS")) <> "string" ->
  PluginLoader.default JSON_parse prefix envVars = Return VUndefined.
Proof.
  unfold PluginLoader.default. now destruct (field envVars (prefix +:+ "_ALIAS")).
Qed.

(** The older hook reads [DEPLOY_ALIAS] and marks a plain [Error]. *)
Lemma InitHook_default_resolves (env : gmap string value) (text : string) :
  env !! "DEPLOY_ALIAS" = Some (VStr text) ->
  InitHook.default JSON_parse env
  = match JSON_parse text with
    | inr message =>
        Throw (Error ("Could not parse 'DEPLOY_ALIAS' as a JSON array;"
                      +:+ str1 LF +:+ message) (Some false))
    | inl (VArr elems) => Return (VArr elems)
    | inl _ => Throw (Error "Please format 'DEPLOY_ALIAS' as a JSON array." (Some false))
    end.
Proof.
  intros Henv. unfold InitHook.default, field. rewrite Henv.
  destruct (JSON_parse text) as [[]|]; reflexivity.
Qed.

End Default.


(** The fourth and fifth testable properties of the specification, and
    the three ways the default can end. *)
Example default_not_json :
  PluginLoader.default JSON_parse_table "DEPLOY" {[ "DEPLOY_ALIAS" := VStr "not json" ]}
  = Throw (NonFatalError ("Could not parse 'DEPLOY_ALIAS' as a JSON array;"
                          +:+ str1 LF +:+ "Unexpected token")).
Proof. reflexivity. Qed.

Example default_not_an_array :
  PluginLoader.default JSON_parse_table "DEPLOY"
    {[ "DEPLOY_ALIAS" := VStr ("{" +:+ JSON.quote "a" +:+ ":" +:+ JSON.quote "b" +:+ "}") ]}
  = Throw (NonFatalError "Please format 'DEPLOY_ALIAS' as a JSON array.").
Proof. reflexivity. Qed.

Example default_array :
  PluginLoader.default JSON_parse_table "DEPLOY"
    {[ "DEPLOY_ALIAS" := VStr ("[" +:+ JSON.quote "x=y" +:+ "]") ]}
  = Return (VArr [VStr "x=y"]).
Proof. reflexivity. Qed.

Example default_unset :
  PluginLoader.default JSON_parse_table "DEPLOY" {[ "HOME" := VStr "/root" ]}
  = Return VUndefined.
Proof. reflexivity. Qed.

(** ** C7: the plugin handed to the bundler *)

(** C7, counterexample.  [null] is of type [object], too: a
    configuration whose [cliFlags.alias] is [null] passes the test of
    [getInputPlugin], which calls the aliasing transform on it; when the
    transform throws there, as [@rollup/plugin-alias] does, no plugin is
    returned. *)
Lemma getInputPlugin_null_alias_throws :
  typeof (carried_alias (VObj {[ "cliFlags" := VObj {[ "alias" := VNull ]} ]})) = "object"
  /\ PluginLoader.getInputPlugin value alias_rejecting_null
       (VObj {[ "cliFlags" := VObj {[ "alias" := VNull ]} ]})
     = Throw TypeError.
Proof. split; reflexivity. Qed.

Section InputPlugin.

Variable Plugin : Type.
Variable alias : value -> completion Plugin.

(** C7, as amended.  For every configuration but [null],
    [getInputPlugin] calls the aliasing transform on [cliFlags.alias]
    exactly when [typeof] of that value is [object], and completes as
    the transform does: it returns the plugin the transform returns, and
    what the transform throws gets out.  In every other case, in
    particular when the value is [undefined], it returns nothing. *)
Theorem getInputPlugin_object_only (bundleData : value) :
  bundleData <> VNull ->
  PluginLoader.getInputPlugin Plugin alias bundleData
  = (if String.eqb (typeof (carried_alias bundleData)) "object"
     then match alias (carried_alias bundleData) with
          | Throw e => Throw e
          | Return plugin => Return (Some plugin)
          end
     else Return None)
  /\ (forall plugin,
        PluginLoader.getInputPlugin Plugin alias bundleData = Return (Some plugin)
        <-> typeof (carried_alias bundleData) = "object"
            /\ alias (carried_alias bundleData) = Return plugin)
  /\ (forall e,
        PluginLoader.getInputPlugin Plugin alias bundleData = Throw e
        <-> typeof (carried_alias bundleData) = "object"
            /\ alias (carried_alias bundleData) = Throw e)
  /\ (carried_alias bundleData = VUndefined ->
      PluginLoader.getInputPlugin Plugin alias bundleData = Return None).
Proof.
  intros Hnull.
  assert (Heq : PluginLoader.getInputPlugin Plugin alias bundleData
    = (if String.eqb (typeof (carried_alias bundleData)) "object"
       then match alias (carried_alias bundleData) with
            | Throw e => Throw e
            | Return plugin => Return (Some plugin)
            end
       else Return None)).
  { unfold PluginLoader.getInputPlugin, carried_alias.
    destruct bundleData as [| | | | | |props]; try reflexivity; [contradiction |].
    cbn [get]. destruct (props !! "cliFlags") as [[| |[]|n|s| |flags]|];
      try reflexivity.
    - cbn [truthy]. destruct (n =? 0)%Z; reflexivity.
    - cbn [truthy]. destruct (String.eqb s ""); reflexivity.
    - cbn [truthy get]. unfold field.
      destruct (flags !! "alias") as [v|]; reflexivity. }
  split; [exact Heq |]. rewrite Heq.
  destruct (String.eqb_spec (typeof (carried_alias bundleData)) "object") as [H | H].
  - split; [| split].
    + intros plugin. destruct (alias (carried_alias bundleData)) as [q|e0]; split.
      * intros [= ->]. now split.
      * intros [_ [= ->]]. reflexivity.
      * discriminate.
      * intros [_ [=]].
    + intros e. destruct (alias (carried_alias bundleData)) as [q|e0]; split.
      * discriminate.
      * intros [_ [=]].
      * intros [= ->]. now split.
      * intros [_ [= ->]]. reflexivity.
    + intros Hu. rewrite Hu in H. discriminate.
  - split; [| split].
    + intros plugin. split; [discriminate | intros [Ht _]; contradiction].
    + intros e. split; [discriminate | intros [Ht _]; contradiction].
    + reflexivity.
Qed.

(** A [null] configuration: reading [cliFlags] throws. *)
Lemma getInputPlugin_null :
  PluginLoader.getInputPlugin Plugin alias VNull = Throw TypeError.
Proof. reflexivity. Qed.

(** After a [verify] on an array of strings, the transform is called on
    [{ entries }]. *)
Lemma getInputPlugin_after_verify
    (keys : key_order) (flags flags' : gmap string value) (a : list string)
    (c : completion unit) :
  field flags "alias" = VArr (VStr <$> a) ->
  verify keys flags = (flags', c) ->
  PluginLoader.getInputPlugin Plugin alias (VObj {[ "cliFlags" := VObj flags' ]})
  = match alias (alias_options (accepted_entries a)) with
    | Throw e => Throw e
    | Return plugin => Return (Some plugin)
    end.
Proof.
  intros Halias Hv. rewrite (verify_strings keys flags a Halias) in Hv.
  injection Hv as <- _. destruct (forEach_spec a) as (_ & _ & ->).
  unfold PluginLoader.getInputPlugin. cbn [get].
  rewrite lookup_singleton_eq. cbn [truthy get]. rewrite lookup_insert_eq.
  reflexivity.
Qed.

End InputPlugin.

Lemma getInputPlugin_object_only_witness :
  PluginLoader.getInputPlugin value alias_rejecting_null configuration_without_entries
  = (if String.eqb (typeof (carried_alias configuration_without_entries)) "object"
     then match alias_rejecting_null (carried_alias configuration_without_entries) with
          | Throw e => Throw e
          | Return plugin => Return (Some plugin)
          end
     else Return None)
  /\ (forall plugin,
        PluginLoader.getInputPlugin value alias_rejecting_null
          configuration_without_entries
        = Return (Some plugin)
        <-> typeof (carried_alias configuration_without_entries) = "object"
            /\ alias_rejecting_null (carried_alias configuration_without_entries)
               = Return plugin)
  /\ (forall e,
        PluginLoader.getInputPlugin value alias_rejecting_null
          configuration_without_entries
        = Throw e
        <-> typeof (carried_alias configuration_without_entries) = "object"
            /\ alias_rejecting_null (carried_alias configuration_without_entries)
               = Throw e)
  /\ (carried_alias configuration_without_entries = VUndefined ->
      PluginLoader.getInputPlugin value alias_rejecting_null
        configuration_without_entries
      = Return None).
Proof.
  apply (getInputPlugin_object_only value alias_rejecting_null
           configuration_without_entries).
  discriminate.
Defined.

Example getInputPlugin_no_flags :
  PluginLoader.getInputPlugin value alias_rejecting_null VUndefined = Return None
  /\ PluginLoader.getInputPlugin value alias_rejecting_null
       (VObj {[ "cliFlags" := VObj {[ "watch" := VBool true ]} ]}) = Return None
  /\ PluginLoader.getInputPlugin value alias_rejecting_null
       configuration_without_entries
     = Return (Some (alias_options [])).
Proof. repeat split. Qed.

(** * Further properties of the two copies of [verify] *)

(** ** When [verify] returns *)

Lemma keys_of_cons (s : string) (t : list string) :
  keys_of (s :: t)
  = match parse s with Some e => [find e] | None => [] end ++ keys_of t.
Proof. unfold keys_of. cbn. now destruct (parse s). Qed.

Lemma bad_entries_nil (a : list string) :
  bad_entries a = [] <-> Forall (fun s => is_Some (parse s)) a.
Proof.
  unfold bad_entries. induction a as [|s a IH]; cbn [List.filter].
  - split; [constructor | reflexivity].
  - destruct (parse s) as [e|] eqn:Hs; cbv iota.
    + rewrite IH. split; [intros H; constructor; [eauto | exact H] |].
      intros H. now apply Forall_cons in H.
    + split; [discriminate |]. intros H. apply Forall_cons in H.
      destruct H as [[e He] _]. congruence.
Qed.

Lemma duplicates_after_nil (earlier a : list string) :
  duplicates_after earlier a = []
  <-> NoDup (keys_of a) /\ (forall k, k ∈ keys_of a -> k ∉ keys_of earlier).
Proof.
  revert earlier. induction a as [|s a IH]; intros earlier; cbn [duplicates_after].
  - split; [| reflexivity]. intros _. split; [constructor |].
    intros k Hk. now apply elem_of_nil in Hk.
  - rewrite keys_of_cons. destruct (parse s) as [e|] eqn:Hs; cbn [app].
    + case_bool_decide as Hin.
      * split; [discriminate |]. intros [_ H]. exfalso.
        apply (H (find e)); [apply elem_of_cons; now left | exact Hin].
      * rewrite IH, keys_of_snoc, Hs, NoDup_cons. split.
        -- intros [Hnd H]. split; [split; [| exact Hnd] |].
           ++ intros Hk. apply (H _ Hk). apply elem_of_app. right.
              now apply list_elem_of_singleton.
           ++ intros k Hk Hk'. apply elem_of_cons in Hk. destruct Hk as [-> | Hk].
              ** contradiction.
              ** apply (H k Hk). apply elem_of_app. now left.
        -- intros [[Hfresh Hnd] H]. split; [exact Hnd |].
           intros k Hk Hk'. apply elem_of_app in Hk'. destruct Hk' as [Hk' | Hk'].
           ++ apply (H k); [apply elem_of_cons; now right | exact Hk'].
           ++ apply list_elem_of_singleton in Hk'. subst k. contradiction.
    + rewrite IH, keys_of_snoc, Hs, app_nil_r. reflexivity.
Qed.

(** X1.  On an array of strings, [verify] of PluginLoader.js returns
    without an error exactly when every string matches the pattern and no
    two of them have the same [find]. *)
Theorem verify_returns_iff_all_match_distinct
    (keys : key_order) (flags : gmap string value) (a : list string) :
  field flags "alias" = VArr (VStr <$> a) ->
  (exists flags', verify keys flags = (flags', Return tt))
  <-> Forall (fun s => is_Some (parse s)) a /\ NoDup (keys_of a).
Proof.
  intros Halias. rewrite (verify_strings keys flags a Halias).
  destruct (forEach_spec a) as (Hb & Hw & _).
  rewrite <- bad_entries_nil, <- Hb.
  assert (Hd : warnEntries (forEach a) = [] <-> NoDup (keys_of a)).
  { rewrite Hw. unfold duplicate_entries. rewrite duplicates_after_nil.
    split; [tauto |]. intros H. split; [exact H |].
    intros k _ Hk. now apply elem_of_nil in Hk. }
  rewrite <- Hd, <- completion_of_Return. split.
  - intros [flags' [= _ Hc]]. exact Hc.
  - intros ->. eauto.
Qed.

Lemma verify_returns_iff_all_match_distinct_witness :
  (exists flags', verify keys_as_listed (flags_with ["x=y"; "p=q"]) = (flags', Return tt))
  <-> Forall (fun s => is_Some (parse s)) ["x=y"; "p=q"] /\ NoDup (keys_of ["x=y"; "p=q"]).
Proof.
  apply (verify_returns_iff_all_match_distinct keys_as_listed
           (flags_with ["x=y"; "p=q"]) ["x=y"; "p=q"]).
  reflexivity.
Defined.

(** ** Where the strings of the input go *)

Lemma sublist_snoc_keep {A : Type} (l k : list A) (x : A) :
  l `sublist_of` k -> l ++ [x] `sublist_of` k ++ [x].
Proof. intros H. apply sublist_app; [exact H | reflexivity]. Qed.

Lemma sublist_snoc_skip {A : Type} (l k : list A) (x : A) :
  l `sublist_of` k -> l `sublist_of` k ++ [x].
Proof. intros H. now apply sublist_inserts_r. Qed.

(** X2.  The loop of PluginLoader.js puts every string of the input in
    exactly one of its three arrays: the three lengths add up to the
    length of the input, the bad and the duplicate entries are strings
    of the input in input order, and no bad entry is a duplicate entry. *)
Theorem forEach_partitions_input (a : list string) :
  length (badEntries (forEach a)) + length (warnEntries (forEach a))
    + length (entries (forEach a)) = length a
  /\ badEntries (forEach a) `sublist_of` a
  /\ warnEntries (forEach a) `sublist_of` a
  /\ Forall (fun s => parse s = None) (badEntries (forEach a))
  /\ Forall (fun s => is_Some (parse s)) (warnEntries (forEach a)).
Proof.
  induction a as [|s a IH] using rev_ind.
  - repeat split; cbn; constructor.
  - destruct IH as (Hlen & Hb & Hw & Hbn & Hws).
    rewrite forEach_snoc, step_parse, length_app. cbn [length].
    destruct (parse s) as [e|] eqn:Hs; [case_bool_decide |];
      cbn [badEntries warnEntries entries]; rewrite ?length_app; cbn [length];
      (split; [lia |]);
      repeat split;
      auto using sublist_snoc_keep, sublist_snoc_skip.
    + apply Forall_app. split; [exact Hws |]. constructor; [eauto | constructor].
    + apply Forall_app. split; [exact Hbn |]. constructor; [exact Hs | constructor].
Qed.

(** ** What an accepted entry looks like *)

Lemma parse_well_formed (s : string) (e : AliasEntry) :
  parse s = Some e ->
  find e <> "" /\ replacement e <> ""
  /\ one_line (find e) = true /\ one_line (replacement e) = true
  /\ exists pre post, s = pre +:+ (find e +:+ "=" +:+ replacement e) +:+ post.
Proof.
  intros Hp. apply parse_Some in Hp.
  destruct (exec_regex_Some s _ Hp)
    as (f & r & pre & post & Hm & Hs & Hf & Hr & Hlf & Hlr).
  injection Hm as _ -> ->. repeat split; try assumption. eauto.
Qed.

Lemma accepted_after_omap (earlier a : list string) (e : AliasEntry) :
  e ∈ accepted_after earlier a -> e ∈ omap parse a.
Proof.
  revert earlier. induction a as [|s a IH]; intros earlier H; [exact H |].
  cbn [accepted_after] in H. cbn. destruct (parse s) as [x|].
  - case_bool_decide.
    + apply elem_of_cons. right. exact (IH _ H).
    + apply elem_of_cons in H. apply elem_of_cons.
      destruct H as [-> | H]; [now left | right; exact (IH _ H)].
  - exact (IH _ H).
Qed.

(** X3.  Neither copy of [verify] ever accepts an entry with an empty
    side: in every accepted entry [find] and [replacement] are not empty
    and hold no line terminator, and [find=replacement] is a piece of a
    string of the input. *)
Theorem accepted_entries_well_formed (a : list string) :
  Forall (fun e =>
            find e <> "" /\ replacement e <> ""
            /\ one_line (find e) = true /\ one_line (replacement e) = true
            /\ exists s pre post,
                 s ∈ a /\ s = pre +:+ (find e +:+ "=" +:+ replacement e) +:+ post)
         (entries (forEach a))
  /\ Forall (fun e =>
            find e <> "" /\ replacement e <> ""
            /\ one_line (find e) = true /\ one_line (replacement e) = true
            /\ exists s pre post,
                 s ∈ a /\ s = pre +:+ (find e +:+ "=" +:+ replacement e) +:+ post)
         (InitHook.entries (InitHook.forEach a)).
Proof.
  assert (Hall : forall e, e ∈ omap parse a ->
            find e <> "" /\ replacement e <> ""
            /\ one_line (find e) = true /\ one_line (replacement e) = true
            /\ exists s pre post,
                 s ∈ a /\ s = pre +:+ (find e +:+ "=" +:+ replacement e) +:+ post).
  { intros e He. apply list_elem_of_omap in He. destruct He as (s & Hs & Hp).
    destruct (parse_well_formed s e Hp) as (Hf & Hr & Hlf & Hlr & pre & post & Heq).
    repeat split; try assumption. now exists s, pre, post. }
  split.
  - apply Forall_forall. intros e He. apply Hall.
    destruct (forEach_spec a) as (_ & _ & Hacc). rewrite Hacc in He.
    exact (accepted_after_omap [] a e He).
  - apply Forall_forall. intros e He. apply Hall.
    destruct (InitHook_forEach_spec a) as [_ Hacc]. now rewrite Hacc in He.
Qed.

(** ** From the entries back to the strings *)

Lemma omap_parse_all (a : list string) :
  Forall (fun s => is_Some (parse s)) a ->
  Forall2 (fun s e => parse s = Some e) a (omap parse a).
Proof.
  induction 1 as [|s a [e He] _ IH]; cbn; [constructor |].
  rewrite He. now constructor.
Qed.

Lemma render_parsed (a : list string) (es : list AliasEntry) :
  Forall (fun s => one_line s = true) a ->
  Forall2 (fun s e => parse s = Some e) a es ->
  map (fun e => find e +:+ "=" +:+ replacement e) es = a.
Proof.
  intros Hline Hall. induction Hall as [|s e a es Hs _ IH]; [reflexivity |].
  apply Forall_cons in Hline. destruct Hline as [Hl Hline].
  cbn [map]. rewrite (IH Hline). f_equal. destruct e as [f r].
  apply (parse_one_line s f r Hl) in Hs. now destruct Hs as [-> _].
Qed.

(** X4.  When the strings of the array hold no line terminator and
    [verify] of PluginLoader.js returns without an error, writing each
    entry it leaves as [find=replacement] gives the array back, string by
    string: nothing of the input is lost or reordered. *)
Theorem verify_round_trip
    (keys : key_order) (flags flags' : gmap string value) (a : list string) :
  field flags "alias" = VArr (VStr <$> a) ->
  Forall (fun s => one_line s = true) a ->
  verify keys flags = (flags', Return tt) ->
  exists es,
    flags' = <["alias" := alias_options es]> flags
    /\ map (fun e => find e +:+ "=" +:+ replacement e) es = a.
Proof.
  intros Halias Hline Hv. rewrite (verify_strings keys flags a Halias) in Hv.
  injection Hv as <- Hc. apply completion_of_Return in Hc. destruct Hc as [Hb Hw].
  destruct (forEach_spec a) as (Hb' & Hw' & He).
  rewrite Hb' in Hb. rewrite Hw' in Hw. apply bad_entries_nil in Hb.
  unfold duplicate_entries in Hw. apply duplicates_after_nil in Hw.
  destruct Hw as [Hnd _].
  destruct (forEach_all_accepted a (omap parse a) (omap_parse_all a Hb) Hnd) as (Hacc & _).
  exists (omap parse a). split; [now rewrite Hacc |].
  apply render_parsed; [exact Hline | now apply omap_parse_all].
Qed.

Lemma verify_round_trip_witness :
  exists es,
    <["alias" := alias_options [{| find := "x"; replacement := "y" |};
                                {| find := "p=q"; replacement := "r" |}]]>
      (flags_with ["x=y"; "p=q=r"])
    = <["alias" := alias_options es]> (flags_with ["x=y"; "p=q=r"])
    /\ map (fun e => find e +:+ "=" +:+ replacement e) es = ["x=y"; "p=q=r"].
Proof.
  apply (verify_round_trip keys_as_listed (flags_with ["x=y"; "p=q=r"])
           (<["alias" := alias_options [{| find := "x"; replacement := "y" |};
                                        {| find := "p=q"; replacement := "r" |}]]>
              (flags_with ["x=y"; "p=q=r"]))
           ["x=y"; "p=q=r"]).
  - reflexivity.
  - repeat constructor.
  - reflexivity.
Defined.

(** ** What later strings cannot change *)

(** X5.  What the loop of PluginLoader.js has made of the strings read so
    far stays as it is whatever strings follow: the three arrays after
    [a ++ b] begin with the three arrays after [a]. *)
Theorem forEach_prefix_stable (a b : list string) :
  badEntries (forEach a) `prefix_of` badEntries (forEach (a ++ b))
  /\ warnEntries (forEach a) `prefix_of` warnEntries (forEach (a ++ b))
  /\ entries (forEach a) `prefix_of` entries (forEach (a ++ b)).
Proof.
  unfold forEach at 2 4 6. rewrite fold_left_app. fold (forEach a).
  destruct (fold_step_grows b (forEach a)) as (b' & w' & e' & -> & -> & ->).
  repeat split; eexists; reflexivity.
Qed.

(** ** The two copies of [verify] side by side *)

Lemma accepted_after_sublist (earlier a : list string) :
  accepted_after earlier a `sublist_of` omap parse a.
Proof.
  revert earlier. induction a as [|s a IH]; intros earlier; [constructor |].
  cbn [accepted_after]. cbn. destruct (parse s) as [e|]; [case_bool_decide |].
  - apply sublist_cons. apply IH.
  - apply sublist_skip. apply IH.
  - apply IH.
Qed.

Lemma length_omap_parse (earlier a : list string) :
  length (omap parse a)
  = length (duplicates_after earlier a) + length (accepted_after earlier a).
Proof.
  revert earlier. induction a as [|s a IH]; intros earlier; [reflexivity |].
  cbn [duplicates_after accepted_after]. cbn.
  destruct (parse s) as [e|]; [case_bool_decide |]; cbn [length];
    rewrite ?(IH (earlier ++ [s])); lia.
Qed.

Lemma sublist_same_length {A : Type} (l k : list A) :
  l `sublist_of` k -> length k <= length l -> l = k.
Proof.
  induction 1 as [|x l k _ IH|x l k Hsub _]; cbn [length]; intros Hlen.
  - reflexivity.
  - f_equal. apply IH. lia.
  - apply sublist_length in Hsub. lia.
Qed.

(** X6.  On every array of strings the two copies of the loop find the
    same bad entries; what PluginLoader.js accepts is part of what the
    older init.js accepts, in the same order; and the two accept the same
    entries exactly when PluginLoader.js records no duplicate entry. *)
Theorem verify_copies_side_by_side (a : list string) :
  InitHook.badEntries (InitHook.forEach a) = badEntries (forEach a)
  /\ entries (forEach a) `sublist_of` InitHook.entries (InitHook.forEach a)
  /\ length (InitHook.entries (InitHook.forEach a))
     = length (entries (forEach a)) + length (warnEntries (forEach a))
  /\ (InitHook.entries (InitHook.forEach a) = entries (forEach a)
      <-> warnEntries (forEach a) = []).
Proof.
  destruct (forEach_spec a) as (-> & -> & ->).
  destruct (InitHook_forEach_spec a) as [-> ->].
  pose proof (length_omap_parse [] a) as Hlen.
  pose proof (accepted_after_sublist [] a) as Hsub.
  fold (duplicate_entries a) in Hlen. fold (accepted_entries a) in Hlen, Hsub.
  split; [reflexivity |]. split; [exact Hsub |]. split; [lia |]. split.
  - intros Heq. rewrite Heq in Hlen.
    destruct (duplicate_entries a); [reflexivity | cbn [length] in Hlen; lia].
  - intros Hnil. rewrite Hnil in Hlen. cbn [length] in Hlen.
    symmetry. apply sublist_same_length; [exact Hsub | lia].
Qed.

(** X7.  [verify] of the older init.js on an array of strings: it leaves
    in [flags.alias] the array of all the entries that match, a repeated
    [find] included, and throws exactly when there is a bad entry, an
    [Error] marked [$$bundler_fatal = false] whose message lists the bad
    entries. *)
Theorem InitHook_verify_on_strings
    (keys : key_order) (flags : gmap string value) (a : list string) :
  field flags "alias" = VArr (VStr <$> a) ->
  exists c,
    InitHook.verify keys flags
    = (<["alias" := VArr (map entry_value (omap parse a))]> flags, c)
    /\ (c = Return tt <-> bad_entries a = [])
    /\ (forall e, c = Throw e ->
          e = Error ("plugin-alias verify; can not parse "
                     +:+ JSON.stringify (bad_entries a)
                     +:+ " each entry must be in the format of <xxx>=<yyy>.")
                    (Some false)).
Proof.
  intros Halias. rewrite (InitHook_verify_strings keys flags a Halias).
  destruct (bad_entries a) as [|b bs];
    eexists; (split; [reflexivity |]); split.
  - tauto.
  - discriminate.
  - split; discriminate.
  - intros e Hc. injection Hc as <-. reflexivity.
Qed.

Lemma InitHook_verify_on_strings_witness :
  exists c,
    InitHook.verify keys_as_listed (flags_with ["a=1"; "oops"; "a=2"])
    = (<["alias" := VArr (map entry_value (omap parse ["a=1"; "oops"; "a=2"]))]>
              (flags_with ["a=1"; "oops"; "a=2"]), c)
    /\ (c = Return tt <-> bad_entries ["a=1"; "oops"; "a=2"] = [])
    /\ (forall e, c = Throw e ->
          e = Error ("plugin-alias verify; can not parse "
                     +:+ JSON.stringify (bad_entries ["a=1"; "oops"; "a=2"])
                     +:+ " each entry must be in the format of <xxx>=<yyy>.")
                    (Some false)).
Proof.
  apply (InitHook_verify_on_strings keys_as_listed (flags_with ["a=1"; "oops"; "a=2"])
           ["a=1"; "oops"; "a=2"]).
  reflexivity.
Defined.

(** ** The other flags *)

(** X8.  Whatever [flags.alias] holds, an array of values of any type
    included, and however the call ends, neither copy of [verify]
    touches a property of the flags object other than [alias]: with
    [alias] left out, the object is the one passed in. *)
Theorem verify_touches_alias_only
    (keys : key_order) (flags flags' : gmap string value) (c : completion unit) :
  verify keys flags = (flags', c) \/ InitHook.verify keys flags = (flags', c) ->
  delete "alias" flags' = delete "alias" flags.
Proof.
  intros Hv. unfold verify, InitHook.verify in Hv.
  destruct (field flags "alias") as [| | | | |arr|];
    try (destruct Hv as [[= <- _] | [= <- _]]; reflexivity).
  destruct Hv as [Hv | Hv].
  - destruct (Values.forEach arr) as [st|e]; [| injection Hv as <- _; reflexivity].
    destruct (negb _); injection Hv as <- _; apply delete_insert_eq.
  - destruct (InitHook.Values.forEach arr) as [st|e]; [| injection Hv as <- _; reflexivity].
    destruct (0 <? _)%nat; injection Hv as <- _; apply delete_insert_eq.
Qed.

Lemma verify_touches_alias_only_witness :
  delete "alias"
    (<["alias" := alias_options [{| find := "a"; replacement := "b" |}]]>
       (flags_holding [VNum 123; VStr "a=b"]))
  = delete "alias" (flags_holding [VNum 123; VStr "a=b"]).
Proof.
  apply (verify_touches_alias_only keys_as_listed
           (flags_holding [VNum 123; VStr "a=b"])
           (<["alias" := alias_options [{| find := "a"; replacement := "b" |}]]>
              (flags_holding [VNum 123; VStr "a=b"]))
           (Throw (NonFatalError
              ("plugin-alias verification failure:" +:+ str1 LF
               +:+ "- can not parse [123] each entry must be a 'string' in the format of "
               +:+ "'<xxx>=<yyy>'.")))).
  left. reflexivity.
Defined.

(** * Further properties of the default and of [getInputPlugin] *)

Section MoreBuiltins.

Variable JSON_parse : string -> value + string.
Variable Plugin : Type.
Variable alias : value -> completion Plugin.

(** X9.  The two copies of the default agree when the prefix is
    [DEPLOY]: on every environment they return the same value, or they
    both throw, with the same message, PluginLoader.js a NonFatalError
    and the older init.js an [Error] marked [$$bundler_fatal = false]. *)
Theorem defaults_agree_at_DEPLOY (env : gmap string value) :
  match PluginLoader.default JSON_parse "DEPLOY" env, InitHook.default JSON_parse env with
  | Return v, Return v' => v = v'
  | Throw (NonFatalError m), Throw (Error m' (Some false)) => m = m'
  | _, _ => False
  end.
Proof.
  unfold PluginLoader.default, InitHook.default.
  change ("DEPLOY" +:+ "_ALIAS") with "DEPLOY_ALIAS".
  destruct (field env "DEPLOY_ALIAS"); try reflexivity.
  destruct (JSON_parse s) as [v|m]; [| reflexivity].
  destruct (Array_isArray v); reflexivity.
Qed.

(** X10.  What the default of PluginLoader.js can give: it returns
    [undefined] exactly when the variable does not hold a string; any
    other value it returns is an array; and whatever it throws is a
    NonFatalError.  A parsed value that is not an array never gets
    through. *)
Theorem default_result_shape (prefix : string) (envVars : gmap string value) :
  (PluginLoader.default JSON_parse prefix envVars = Return VUndefined
   <-> typeof (field envVars (prefix +:+ "_ALIAS")) <> "string")
  /\ (forall v, PluginLoader.default JSON_parse prefix envVars = Return v ->
        v = VUndefined \/ Array_isArray v = true)
  /\ (forall e, PluginLoader.default JSON_parse prefix envVars = Throw e ->
        exists m, e = NonFatalError m).
Proof.
  unfold PluginLoader.default.
  destruct (field envVars (prefix +:+ "_ALIAS")) as [| | | |text| |]; cbn [typeof];
    try (split; [split; [discriminate | reflexivity] |];
         split; [intros v [= <-]; now left | discriminate]).
  destruct (JSON_parse text) as [v|m].
  - destruct v; cbn [Array_isArray negb];
      (split; [split; [discriminate | intros H; now contradiction H] |]);
      (split; [intros v' [= <-]; now right | intros e [= <-]; eauto])
      || (split; [discriminate | intros e [= <-]; eauto]).
  - split; [split; [discriminate | intros H; now contradiction H] |].
    split; [discriminate | intros e [= <-]; eauto].
Qed.

(** X11.  [getInputPlugin] throws in two cases only: on the
    configuration [null], whose property [cliFlags] cannot be read, a
    TypeError; and when [cliFlags.alias] is of type [object] and the
    aliasing transform throws on it, what the transform throws.  On
    every other value, a missing argument included, it returns. *)
Theorem getInputPlugin_throws_iff (bundleData : value) (e : exn) :
  PluginLoader.getInputPlugin Plugin alias bundleData = Throw e
  <-> (bundleData = VNull /\ e = TypeError)
      \/ (typeof (carried_alias bundleData) = "object"
          /\ alias (carried_alias bundleData) = Throw e).
Proof.
  unfold PluginLoader.getInputPlugin, carried_alias.
  destruct bundleData as [| | | | | |props]; cbn [get typeof];
    try (split; [discriminate | intros [[[=] _] | [[=] _]]]).
  - split; [intros [= <-]; now left | intros [[_ ->] | [[=] _]]; reflexivity].
  - destruct (props !! "cliFlags") as [[| |[]|n|s| |flags]|]; cbn [truthy get typeof];
      try (split; [discriminate | intros [[[=] _] | [[=] _]]]).
    + destruct (n =? 0)%Z; split; try discriminate; intros [[[=] _] | [[=] _]].
    + destruct (String.eqb s ""); split; try discriminate; intros [[[=] _] | [[=] _]].
    + unfold field. destruct (flags !! "alias") as [v|]; cbn [typeof];
        [| split; [discriminate | intros [[[=] _] | [[=] _]]]].
      destruct (String.eqb_spec (typeof v) "object") as [Hv | Hv].
      * destruct (alias v) as [q|e0]; split.
        -- discriminate.
        -- intros [[[=] _] | [_ [=]]].
        -- intros [= ->]. right. now split.
        -- intros [[[=] _] | [_ [= ->]]]. reflexivity.
      * split; [discriminate | intros [[[=] _] | [Ht _]]; contradiction].
Qed.

(** X12.  [verify] and [getInputPlugin] of PluginLoader.js fit together:
    on the flags object a call of [verify] on an array of strings has
    left, whether it returned or threw, [getInputPlugin] calls the
    aliasing transform on [{ entries }], with the accepted entries,
    whose [find] keys are pairwise distinct, and completes as the
    transform does there: it returns the plugin the transform returns. *)
Theorem plugin_built_from_accepted_entries
    (keys : key_order) (flags flags' : gmap string value) (a : list string)
    (c : completion unit) :
  field flags "alias" = VArr (VStr <$> a) ->
  verify keys flags = (flags', c) ->
  exists es,
    PluginLoader.getInputPlugin Plugin alias (VObj {[ "cliFlags" := VObj flags' ]})
    = match alias (alias_options es) with
      | Throw e => Throw e
      | Return plugin => Return (Some plugin)
      end
    /\ es = accepted_entries a /\ NoDup (find <$> es).
Proof.
  intros Halias Hv. rewrite (verify_strings keys flags a Halias) in Hv.
  injection Hv as <- _. exists (entries (forEach a)).
  destruct (forEach_spec a) as (_ & _ & He).
  split; [| split; [exact He | apply forEach_NoDup]].
  unfold PluginLoader.getInputPlugin. cbn [get].
  rewrite lookup_singleton_eq. cbn [truthy get]. rewrite lookup_insert_eq.
  reflexivity.
Qed.

End MoreBuiltins.

Lemma plugin_built_from_accepted_entries_witness :
  exists es,
    PluginLoader.getInputPlugin value alias_rejecting_null
      (VObj {[ "cliFlags" :=
                 VObj (<["alias" := alias_options [{| find := "a"; replacement := "1" |}]]>
                         (flags_with ["a=1"; "a=2"])) ]})
    = match alias_rejecting_null (alias_options es) with
      | Throw e => Throw e
      | Return plugin => Return (Some plugin)
      end
    /\ es = accepted_entries ["a=1"; "a=2"] /\ NoDup (find <$> es).
Proof.
  apply (plugin_built_from_accepted_entries value alias_rejecting_null keys_as_listed
           (flags_with ["a=1"; "a=2"])
           (<["alias" := alias_options [{| find := "a"; replacement := "1" |}]]>
              (flags_with ["a=1"; "a=2"]))
           ["a=1"; "a=2"]
           (Throw (NonFatalError (failure_message [] ["a=2"])))).
  - reflexivity.
  - reflexivity.
Defined.

(** * Properties of the registration and of the init hooks *)

Section Hooks.

Variable JSON_parse : string -> value + string.
Variable keys : key_order.
Variable Plugin : Type.
Variable alias : value -> completion Plugin.
Variable responds : list (Framework.call Plugin) -> Framework.call Plugin -> option exn.

Import Framework.

Local Abbreviation all_return := (Framework.all_return Plugin responds).
Local Abbreviation perform_all := (Framework.perform_all Plugin responds).
Local Abbreviation completion_after := (Framework.completion_after Plugin responds).

(** A run of calls either makes them all, or stops at the first that
    throws. *)
Lemma perform_all_cases (cs h : list (call Plugin)) :
  (all_return h cs /\ perform_all cs h = (h ++ cs, Return tt))
  \/ (exists pre c0 post e,
        cs = pre ++ c0 :: post /\ all_return h pre
        /\ responds (h ++ pre) c0 = Some e
        /\ perform_all cs h = (h ++ pre ++ [c0], Throw e)).
Proof.
  revert h. induction cs as [|c cs IH]; intros h.
  - left. split; [exact I |]. cbn. now rewrite app_nil_r.
  - cbn [Framework.perform_all Framework.all_return]. unfold Framework.bind, Framework.perform.
    destruct (responds h c) as [e|] eqn:Hc.
    + right. exists [], c, cs, e. rewrite app_nil_r. repeat split. exact Hc.
    + destruct (IH (h ++ [c])) as [[Hall Hrun] | (pre & c0 & post & e & -> & Hall & He & Hrun)].
      * left. split; [now split |]. rewrite Hrun, <- app_assoc. reflexivity.
      * right. exists (c :: pre), c0, post, e. rewrite <- app_assoc in He.
        repeat split; try assumption. rewrite Hrun, <- app_assoc. reflexivity.
Qed.

(** The same under [try { ... } catch (error) { this.error(error) }]. *)
Lemma guarded_cases (cs : list (call Plugin)) :
  let run := Framework.try_catch Plugin (perform_all cs)
               (fun error => Framework.perform Plugin responds (this_error Plugin error)) [] in
  (all_return [] cs /\ run = (cs, Return tt))
  \/ (exists pre c0 post e,
        cs = pre ++ c0 :: post /\ all_return [] pre /\ responds pre c0 = Some e
        /\ run = (pre ++ [c0; this_error Plugin e],
                  completion_after (pre ++ [c0]) (this_error Plugin e))).
Proof.
  intros run. unfold run, Framework.try_catch.
  destruct (perform_all_cases cs []) as [[Hall Hrun] | (pre & c0 & post & e & Hcs & Hall & He & Hrun)].
  - left. rewrite Hrun. now split.
  - right. exists pre, c0, post, e. rewrite Hrun. cbn [app] in *.
    repeat split; try assumption. unfold Framework.perform, Framework.completion_after.
    now rewrite <- app_assoc.
Qed.

Local Ltac run_hook :=
  unfold Framework.older_init_hook, Framework.init_hook, Framework.onPluginLoad,
    Framework.addFlags, Framework.s_ADD_FLAGS, Framework.try_catch, Framework.bind,
    Framework.perform, Framework.ret, Framework.completion_after;
  cbn [Framework.perform_all app];
  unfold Framework.bind, Framework.perform, Framework.ret;
  cbn [app].

(** X13.  The init hook of the older init.js calls, in this order, the
    plugin manager, the flag handler (for the command [build] and for no
    other) and [process.stdout]; the first call that throws ends the
    sequence, and its error and no other goes to [this.error], which is
    then the last call and decides how the hook ends.  So the flag is
    registered only for [build] and only after the plugin was added. *)
Theorem older_init_hook_calls (id : string) :
  let add := pluginManager_add Plugin "plugin-alias" "PluginHandler" None in
  let reg := eventbus_trigger Plugin "oclif:system:flaghandler:add"
               (older_flag_handler JSON_parse keys id) in
  let out := stdout_write Plugin ("plugin-alias init hook running " +:+ id +:+ str1 LF) in
  let cs := add :: (if String.eqb id "build" then [reg] else []) ++ [out] in
  let run := older_init_hook JSON_parse keys Plugin responds id [] in
  ((all_return [] cs /\ run = (cs, Return tt))
   \/ (exists pre c0 post e,
         cs = pre ++ c0 :: post /\ all_return [] pre /\ responds pre c0 = Some e
         /\ run = (pre ++ [c0; this_error Plugin e],
                   completion_after (pre ++ [c0]) (this_error Plugin e))))
  /\ ((exists ev p, eventbus_trigger Plugin ev p ∈ fst run)
      <-> id = "build" /\ responds [] add = None).
Proof.
  intros add reg out cs run.
  assert (Hrun : run = Framework.try_catch Plugin (perform_all cs)
                         (fun error => Framework.perform Plugin responds
                                         (this_error Plugin error)) []).
  { unfold run, cs. run_hook. fold add.
    destruct (responds [] add) as [e|]; [reflexivity |].
    destruct (String.eqb id "build"); run_hook; fold add reg out.
    - destruct (responds [add] reg) as [e|]; [reflexivity |].
      destruct (responds [add; reg] out) as [e|]; reflexivity.
    - destruct (responds [add] out) as [e|]; reflexivity. }
  split; [rewrite Hrun; apply guarded_cases |].
  rewrite Hrun. unfold cs. run_hook. fold add.
  destruct (responds [] add) as [e|] eqn:Ha; cbn [fst].
  - split; [| intros [_ [=]]]. intros (ev & p & Hin).
    repeat (apply elem_of_cons in Hin; destruct Hin as [Hin | Hin]; try discriminate).
    now apply elem_of_nil in Hin.
  - destruct (String.eqb_spec id "build") as [Hid | Hid]; run_hook.
    + split; [now intros _ |]. intros _. exists "oclif:system:flaghandler:add",
        (older_flag_handler JSON_parse keys id). fold add reg out.
      destruct (responds [add] reg) as [e|]; cbn [fst];
        [| destruct (responds [add; reg] out) as [e|]; cbn [fst]];
        apply elem_of_cons; right; apply elem_of_cons; now left.
    + split; [| intros [Hb _]; contradiction].
      intros (ev & p & Hin). exfalso. fold add out in Hin.
      destruct (responds [add] out) as [e|]; cbn [fst] in Hin;
        repeat (apply elem_of_cons in Hin; destruct Hin as [Hin | Hin]; try discriminate);
        now apply elem_of_nil in Hin.
Qed.

(** X14.  The init hook that adds PluginLoader calls the plugin manager
    and then writes its debug line on the eventbus; if the plugin manager
    throws no line is written; the first error and no other goes to
    [this.error], which is then the last call and decides how the hook
    ends. *)
Theorem init_hook_calls (id : string) (flagsModule : value) :
  let add := pluginManager_add Plugin (packageName) "PluginLoader"
               (Some {[ "id" := VStr id; "flagsModule" := flagsModule ]}) in
  let log := eventbus_trigger Plugin "log:debug"
               (Message ("plugin-alias init hook running '" +:+ id +:+ "'.")) in
  let run := init_hook Plugin responds id flagsModule [] in
  ((all_return [] [add; log] /\ run = ([add; log], Return tt))
   \/ (exists pre c0 post e,
         [add; log] = pre ++ c0 :: post /\ all_return [] pre /\ responds pre c0 = Some e
         /\ run = (pre ++ [c0; this_error Plugin e],
                   completion_after (pre ++ [c0]) (this_error Plugin e))))
  /\ ((exists ev p, eventbus_trigger Plugin ev p ∈ fst run) <-> responds [] add = None).
Proof.
  intros add log run.
  assert (Hrun : run = Framework.try_catch Plugin (perform_all [add; log])
                         (fun error => Framework.perform Plugin responds
                                         (this_error Plugin error)) []).
  { unfold run. run_hook. fold add log.
    destruct (responds [] add) as [e|]; [reflexivity |].
    destruct (responds [add] log) as [e|]; reflexivity. }
  split; [rewrite Hrun; apply guarded_cases |].
  rewrite Hrun. run_hook. fold add log.
  destruct (responds [] add) as [e|] eqn:Ha; cbn [fst].
  - split; [| discriminate]. intros (ev & p & Hin).
    repeat (apply elem_of_cons in Hin; destruct Hin as [Hin | Hin]; try discriminate).
    now apply elem_of_nil in Hin.
  - split; [reflexivity |]. intros _. exists "log:debug",
      (Message ("plugin-alias init hook running '" +:+ id +:+ "'.")).
    destruct (responds [add] log) as [e|]; cbn [fst];
      apply elem_of_cons; right; apply elem_of_cons; now left.
Qed.

(** X15.  [onPluginLoad] first binds [getInputPlugin] to the event that
    collects the input plugins and then registers the flag; it has no
    [catch], so when the binding throws the flag is not registered and
    the error gets out.  What it wires fits together: the [default] it
    registers reads [process.env] when it is given no argument and its
    argument otherwise, under the prefix of the moment; and the callback
    it binds, run on what the [verify] it registers has left of an array
    of strings, calls the aliasing transform on the accepted entries and
    completes as the transform does. *)
Theorem onPluginLoad_wiring :
  let bound := eventbus_on Plugin "typhonjs:oclif:bundle:plugins:main:input:get"
                 (PluginLoader.getInputPlugin Plugin alias) "PluginLoader" in
  let run := onPluginLoad JSON_parse keys Plugin alias responds [] in
  (forall e, responds [] bound = Some e -> run = ([bound], Throw e))
  /\ (responds [] bound = None ->
      exists callback properties flag registered,
        let reg := eventbus_trigger Plugin "typhonjs:oclif:system:flaghandler:add"
                     (FlagHandler properties flag registered) in
        run = ([eventbus_on Plugin "typhonjs:oclif:bundle:plugins:main:input:get"
                  callback "PluginLoader"; reg],
               completion_after [bound] reg)
        /\ properties = [("command", "bundle");
                         ("pluginName", "@typhonjs-node-rollup/plugin-alias")]
        /\ char flag = "a" /\ multiple flag = true
        /\ (forall amb,
              default flag amb None
              = PluginLoader.default JSON_parse (flag_env_prefix amb) (process_env amb))
        /\ (forall amb envVars,
              default flag amb (Some envVars)
              = PluginLoader.default JSON_parse (flag_env_prefix amb) envVars)
        /\ (forall flags flags' a c,
              field flags "alias" = VArr (VStr <$> a) ->
              registered flags = (flags', c) ->
              callback (VObj {[ "cliFlags" := VObj flags' ]})
              = match alias (alias_options (accepted_entries a)) with
                | Throw e => Throw e
                | Return plugin => Return (Some plugin)
                end)).
Proof.
  intros bound run. split.
  - intros e He. unfold run. run_hook. fold bound. now rewrite He.
  - intros Hb. eexists _, _, _, _. split.
    { unfold run. run_hook. fold bound. rewrite Hb.
      unfold Framework.alias_flag_handler. reflexivity. }
    split; [reflexivity |]. split; [reflexivity |]. split; [reflexivity |].
    split; [intros amb; reflexivity |]. split; [intros amb envVars; reflexivity |].
    intros flags flags' a c Halias Hv.
    rewrite (verify_strings keys flags a Halias) in Hv. injection Hv as <- _.
    destruct (forEach_spec a) as (_ & _ & ->).
    unfold PluginLoader.getInputPlugin. cbn [get].
    rewrite lookup_singleton_eq. cbn [truthy get]. rewrite lookup_insert_eq.
    reflexivity.
Qed.

End Hooks.

(** * The reducer of the loop *)

(** X18.  The [reduce] that looks for an earlier entry with the same
    [find] returns its initial value, the Boolean [false], on an empty
    array, where no [|=] runs; on any other array it returns the Number
    1 when there is such an entry and the Number 0 when there is none.
    So the [if] that tests the result is a test of membership. *)
Theorem reduce_overrides_is_membership (es : list AliasEntry) (key : string) :
  reduce_overrides es key
  = match es with
    | [] => Boolean false
    | _ :: _ => Number (Z.b2z (bool_decide (key ∈ find <$> es)))
    end
  /\ ToBoolean (reduce_overrides es key) = bool_decide (key ∈ find <$> es).
Proof.
  unfold reduce_overrides. destruct es as [|e es].
  - cbn [fold_left ToBoolean]. split; [reflexivity |].
    symmetry. apply bool_decide_eq_false_2, not_elem_of_nil.
  - rewrite (fold_bitwise_or (e :: es) key (Boolean false) false) by easy.
    cbn [orb ToBoolean]. split; [reflexivity |].
    now destruct (bool_decide (key ∈ find <$> e :: es)).
Qed.

Lemma parse_one_line_None_witness :
  parse "not-valid" = None
  <-> ~ exists a b, "not-valid" = a +:+ "=" +:+ b /\ a <> "" /\ b <> "".
Proof. apply (parse_one_line_None "not-valid"). reflexivity. Defined.

(** * [verify] of PluginLoader.js on an array of values of any type *)

(** A callback that throws ends the loop with what it throws. *)
Lemma Values_forEach_from_traverse_Throw
    (a : list value) (st : Values.loop_state) (e : exn) :
  traverse ToString a = Throw e -> Values.forEach_from st a = Throw e.
Proof.
  revert st. induction a as [|v a IH]; intros st; cbn [traverse Values.forEach_from];
    [discriminate |].
  unfold Values.step. destruct (ToString v) as [text|e1]; [| now intros [= <-]].
  destruct (traverse ToString a) as [texts|e2]; [discriminate |].
  intros [= <-]. now apply IH.
Qed.

(** When every entry has a text, the loop on the values decides as the
    loop on the texts does: it accepts the same entries and has as many
    bad and as many duplicate entries. *)
Lemma Values_forEach_from_texts
    (a : list value) (texts : list string) (st : Values.loop_state) (st0 : loop_state) :
  traverse ToString a = Return texts ->
  Values.entries st = entries st0 ->
  length (Values.badEntries st) = length (badEntries st0) ->
  length (Values.warnEntries st) = length (warnEntries st0) ->
  exists st',
    Values.forEach_from st a = Return st'
    /\ Values.entries st' = entries (fold_left step texts st0)
    /\ length (Values.badEntries st') = length (badEntries (fold_left step texts st0))
    /\ length (Values.warnEntries st') = length (warnEntries (fold_left step texts st0)).
Proof.
  revert texts st st0. induction a as [|v a IH]; intros texts st st0;
    cbn [traverse Values.forEach_from].
  - intros [= <-] He Hb Hw. exists st. now repeat split.
  - unfold Values.step. destruct (ToString v) as [text|e1]; [| discriminate].
    destruct (traverse ToString a) as [texts'|e2] eqn:Ht; [| discriminate].
    intros [= <-] He Hb Hw. cbn [fold_left].
    apply (IH texts' _ (step st0 text) eq_refl); unfold step; rewrite He;
      (destruct (exec regex text) as [m|];
       [destruct (3 <=? length m)%nat;
        [destruct (ToBoolean (reduce_overrides (entries st0) (nth 1 m ""))) |] |]);
      cbn [Values.entries Values.badEntries Values.warnEntries
           entries badEntries warnEntries];
      rewrite ?length_app; cbn [length]; congruence.
Qed.

(** X19.  On an array of values of any type, [verify] of PluginLoader.js
    does what it does on the array of the texts ToString gives the
    entries: when every entry has a text, it assigns the entries
    accepted from the texts, whose [find] keys are pairwise distinct,
    and returns exactly when no text is a bad or a duplicate entry, and
    throws a NonFatalError otherwise; when an
    entry has no text, it throws a TypeError and leaves the flags object
    as it was. *)
Theorem verify_any_array (keys : key_order) (flags : gmap string value) (a : list value) :
  field flags "alias" = VArr a ->
  (forall texts,
     traverse ToString a = Return texts ->
     fst (verify keys flags)
     = <["alias" := alias_options (accepted_entries texts)]> flags
     /\ NoDup (find <$> accepted_entries texts)
     /\ (snd (verify keys flags) = Return tt
         <-> bad_entries texts = [] /\ duplicate_entries texts = [])
     /\ (forall e, snd (verify keys flags) = Throw e -> exists m, e = NonFatalError m))
  /\ (forall e,
        traverse ToString a = Throw e -> verify keys flags = (flags, Throw TypeError)).
Proof.
  intros Halias. unfold verify. rewrite Halias. split.
  - intros texts Ht.
    destruct (Values_forEach_from_texts a texts Values.initial initial Ht
                eq_refl eq_refl eq_refl) as (st & Hrun & He & Hb & Hw).
    fold (forEach texts) in He, Hb, Hw. unfold Values.forEach. rewrite Hrun.
    destruct (forEach_spec texts) as (Hbad & Hwarn & Hent).
    pose proof (forEach_NoDup texts) as Hnd.
    rewrite Hbad in Hb. rewrite Hwarn in Hw. rewrite Hent in He, Hnd.
    destruct (String.eqb (Values.errorMessage keys (Values.badEntries st)
                            (Values.warnEntries st)) failure_header) eqn:Hmsg;
      cbn [negb fst snd]; rewrite He; (split; [reflexivity |]);
      (split; [exact Hnd |]).
    + apply Values_errorMessage_header in Hmsg. destruct Hmsg as [Hb0 Hw0].
      rewrite Hb0 in Hb. rewrite Hw0 in Hw. split; [| discriminate].
      split; [intros _ | reflexivity].
      split; [now destruct (bad_entries texts) | now destruct (duplicate_entries texts)].
    + split; [| intros e [= <-]; eauto].
      split; [discriminate |]. intros [Hb0 Hw0].
      rewrite Hb0 in Hb. rewrite Hw0 in Hw.
      assert (H : String.eqb (Values.errorMessage keys (Values.badEntries st)
                                (Values.warnEntries st)) failure_header = true).
      { apply Values_errorMessage_header.
        split; [now destruct (Values.badEntries st) | now destruct (Values.warnEntries st)]. }
      congruence.
  - intros e Ht. unfold Values.forEach.
    pose proof (Values_forEach_from_traverse_Throw a Values.initial e Ht) as Hrun.
    rewrite Hrun. f_equal. f_equal.
    exact (Values_forEach_from_throws a Values.initial e Hrun).
Qed.

Lemma verify_any_array_witness :
  (forall texts,
     traverse ToString [VNum 123; VArr [VStr "a=b"]; VStr "a=c"; VNull] = Return texts ->
     fst (verify keys_as_listed (flags_holding [VNum 123; VArr [VStr "a=b"]; VStr "a=c"; VNull]))
     = <["alias" := alias_options (accepted_entries texts)]>
         (flags_holding [VNum 123; VArr [VStr "a=b"]; VStr "a=c"; VNull])
     /\ NoDup (find <$> accepted_entries texts)
     /\ (snd (verify keys_as_listed
                (flags_holding [VNum 123; VArr [VStr "a=b"]; VStr "a=c"; VNull]))
         = Return tt
         <-> bad_entries texts = [] /\ duplicate_entries texts = [])
     /\ (forall e,
           snd (verify keys_as_listed
                  (flags_holding [VNum 123; VArr [VStr "a=b"]; VStr "a=c"; VNull]))
           = Throw e -> exists m, e = NonFatalError m))
  /\ (forall e,
        traverse ToString [VNum 123; VArr [VStr "a=b"]; VStr "a=c"; VNull] = Throw e ->
        verify keys_as_listed (flags_holding [VNum 123; VArr [VStr "a=b"]; VStr "a=c"; VNull])
        = (flags_holding [VNum 123; VArr [VStr "a=b"]; VStr "a=c"; VNull], Throw TypeError)).
Proof.
  apply (verify_any_array keys_as_listed
           (flags_holding [VNum 123; VArr [VStr "a=b"]; VStr "a=c"; VNull])
           [VNum 123; VArr [VStr "a=b"]; VStr "a=c"; VNull]).
  reflexivity.
Defined.

(** The texts of the example, and what [verify] makes of them: the
    Number and [null] are bad entries, the Array reads [a=b] and is
    accepted, and [a=c] is a duplicate entry. *)
Example verify_any_array_texts :
  traverse ToString [VNum 123; VArr [VStr "a=b"]; VStr "a=c"; VNull]
  = Return ["123"; "a=b"; "a=c"; "null"]
  /\ verify keys_as_listed (flags_holding [VNum 123; VArr [VStr "a=b"]; VStr "a=c"; VNull])
     = (<["alias" := alias_options [{| find := "a"; replacement := "b" |}]]>
          (flags_holding [VNum 123; VArr [VStr "a=b"]; VStr "a=c"; VNull]),
        Throw (NonFatalError
          ("plugin-alias verification failure:" +:+ str1 LF
           +:+ "- can not parse [123,null] each entry must be a 'string' in the format of "
           +:+ "'<xxx>=<yyy>'." +:+ str1 LF
           +:+ "- the following entries overwrite previous entries ["
           +:+ JSON.quote "a=c" +:+ "]."))).
Proof. split; reflexivity. Qed.

